(** * Finder: similarity ranking, feature loading and the pending-request cache

    A shallow embedding of [finder/processing/similarity.py],
    [finder/processing/loading.py], [finder/utils/utils.py] and the request
    handlers and periodic helpers of [server.py], followed by the properties
    of the specification that concern them.

    Modelling conventions.
    - numpy scalars are extended reals with a NaN ([np_float]): arithmetic is
      exact on finite values, so rounding and overflow are idealised away,
      while the IEEE results of a division by zero (NaN, infinities) are kept;
    - a 1-D [np.ndarray] is a [list R];
    - a Python [dict] whose iteration order is observed ([images], the result
      of [load_features]) is an association list in insertion order; a dict
      used only as a map ([requests_cache], the directories) is a [gmap];
    - a raised exception is the [Raise] constructor of [result]; handlers
      thread the [world] (file system, globals, log of extractor calls)
      explicitly, and what was written before an exception stays written. *)

From Stdlib Require Import Reals Lra Lia ZArith Ascii String.
From stdpp Require Import base option list sorting strings gmap fin_maps.

(* ===================================================================== *)
(** ** Exceptions *)
(* ===================================================================== *)

Inductive exn : Type :=
  | ValueError            (* numpy: shapes not aligned *)
  | UnidentifiedImageError (* PIL: Image.open on a file that is no image *)
  | RequestException      (* requests: download failed *)
  | FileNotFoundError.    (* open: no such file *)

Inductive result (A : Type) : Type :=
  | Ok (a : A)
  | Raise (e : exn).
Arguments Ok {A} a.
Arguments Raise {A} e.

Definition rbind {A B : Type} (r : result A) (k : A -> result B) : result B :=
  match r with
  | Ok a => k a
  | Raise e => Raise e
  end.

Declare Scope result_scope.
Delimit Scope result_scope with result.
Notation "'try!' x := r 'in' k" := (rbind r (fun x => k))
  (at level 10, x name, r at level 100, k at level 200,
   format "'[v' 'try!'  x  :=  r  'in' '/' k ']'") : result_scope.
Open Scope result_scope.

(* ===================================================================== *)
(** ** numpy scalars and vectors *)
(* ===================================================================== *)

Module NumPy.

#[local] Open Scope R_scope.

(** A numpy floating scalar: a finite value, an infinity or NaN. *)
Inductive np_float : Type :=
  | NaN
  | PInf
  | NInf
  | Fin (x : R).

(** Sign of a real, for the IEEE rules on infinities and zero divisors. *)
Inductive sign : Type := Neg | Zero | Pos.

Definition Rsign (x : R) : sign :=
  match total_order_T x 0 with
  | inleft (left _) => Neg
  | inleft (right _) => Zero
  | inright _ => Pos
  end.

Definition np_sign (x : np_float) : option sign :=
  match x with
  | NaN => None
  | PInf => Some Pos
  | NInf => Some Neg
  | Fin r => Some (Rsign r)
  end.

Definition inf_of_signs (s1 s2 : sign) : np_float :=
  match s1, s2 with
  | Zero, _ | _, Zero => NaN
  | Pos, Pos | Neg, Neg => PInf
  | Pos, Neg | Neg, Pos => NInf
  end.

Definition np_neg (x : np_float) : np_float :=
  match x with
  | NaN => NaN
  | PInf => NInf
  | NInf => PInf
  | Fin r => Fin (- r)
  end.

Definition np_add (x y : np_float) : np_float :=
  match x, y with
  | NaN, _ | _, NaN => NaN
  | PInf, NInf | NInf, PInf => NaN
  | PInf, _ | _, PInf => PInf
  | NInf, _ | _, NInf => NInf
  | Fin a, Fin b => Fin (a + b)
  end.

Definition np_sub (x y : np_float) : np_float := np_add x (np_neg y).

Definition np_mul (x y : np_float) : np_float :=
  match x, y with
  | Fin a, Fin b => Fin (a * b)
  | _, _ =>
      match np_sign x, np_sign y with
      | Some s1, Some s2 => inf_of_signs s1 s2
      | _, _ => NaN
      end
  end.

(** True division of numpy scalars: a zero divisor gives NaN for [0/0] and an
    infinity otherwise (numpy warns, it does not raise). *)
Definition np_div (x y : np_float) : np_float :=
  match x, y with
  | NaN, _ | _, NaN => NaN
  | Fin a, Fin b =>
      match Rsign b with
      | Zero => match Rsign a with Zero => NaN | Pos => PInf | Neg => NInf end
      | _ => Fin (a / b)
      end
  | Fin _, _ => Fin 0
  | _, Fin b =>
      match np_sign x, Rsign b with
      | Some Pos, Neg | Some Neg, Pos | Some Neg, Zero => NInf
      | _, _ => PInf
      end
  | _, _ => NaN
  end.

Definition np_exp (x : np_float) : np_float :=
  match x with
  | NaN => NaN
  | PInf => PInf
  | NInf => Fin 0
  | Fin r => Fin (exp r)
  end.

(** [x < y] and [x >= y] on scalars; every comparison with NaN is [False]. *)
Definition np_lt (x y : np_float) : bool :=
  match x, y with
  | NaN, _ | _, NaN => false
  | _, NInf => false
  | NInf, _ => true
  | PInf, _ => false
  | Fin _, PInf => true
  | Fin a, Fin b => if Rlt_dec a b then true else false
  end.

Definition np_ge (x y : np_float) : bool :=
  match x, y with
  | NaN, _ | _, NaN => false
  | _, NInf => true
  | NInf, _ => false
  | PInf, _ => true
  | Fin _, PInf => false
  | Fin a, Fin b => if Rle_dec b a then true else false
  end.

(** A one-dimensional array of floats. *)
Definition ndarray : Type := list R.

Fixpoint sum_products (a b : ndarray) : R :=
  match a, b with
  | x :: a', y :: b' => x * y + sum_products a' b'
  | _, _ => 0
  end.

(** [np.dot] on two 1-D arrays raises when the lengths differ. *)
Definition np_dot (a b : ndarray) : result R :=
  if Nat.eqb (length a) (length b) then Ok (sum_products a b)
  else Raise ValueError.

(** [np.linalg.norm] of a 1-D array: the 2-norm. *)
Definition linalg_norm (a : ndarray) : R := sqrt (sum_products a a).

(** [a - b], elementwise; line 16 of the caller has already rejected unequal
    lengths by the time line 20 subtracts. *)
Definition np_subtract (a b : ndarray) : result ndarray :=
  if Nat.eqb (length a) (length b) then Ok (zip_with Rminus a b)
  else Raise ValueError.

End NumPy.

(* ===================================================================== *)
(** ** finder/processing/similarity.py *)
(* ===================================================================== *)

Module Similarity.
Import NumPy.
#[local] Open Scope R_scope.

Definition calc_similarity (vector1 vector2 : ndarray)
    (cosine_penalty_factor euclidean_penalty_factor : R) : result np_float :=
  (* Cosine similarity *)
  try! d := np_dot vector1 vector2 in
  let cosine_sim :=
    np_div (Fin d) (np_mul (Fin (linalg_norm vector1)) (Fin (linalg_norm vector2))) in
  let cosine_distance := np_sub (Fin 1) cosine_sim in
  (* Euclidean distance *)
  try! diff := np_subtract vector1 vector2 in
  let euclidean_distance := Fin (linalg_norm diff) in
  (* Adjusted similarities *)
  let adjusted_cosine_similarity :=
    np_exp (np_mul (Fin (- cosine_penalty_factor)) cosine_distance) in
  let adjusted_euclidean_similarity :=
    np_div (Fin 1)
      (np_add (Fin 1) (np_mul (Fin euclidean_penalty_factor) euclidean_distance)) in
  (* Combined similarity *)
  let combined_similarity :=
    np_div (np_add adjusted_cosine_similarity adjusted_euclidean_similarity) (Fin 2) in
  Ok combined_similarity.

(** A path is written as its text; inside one directory it is the file name. *)
Definition Path : Type := string.

(** Truth value of an [Optional[float]] threshold: [None] and [0.0] are
    falsy. *)
Definition truthy (threshold : option R) : bool :=
  match threshold with
  | None => false
  | Some t => if Req_dec_T t 0 then false else true
  end.

(** [min_similarity and similarity < min_similarity] *)
Definition below_min (min_similarity : option R) (similarity : np_float) : bool :=
  match min_similarity with
  | None => false
  | Some t => truthy min_similarity && np_lt similarity (Fin t)
  end.

(** [max_similarity and similarity >= max_similarity] *)
Definition reaches_max (max_similarity : option R) (similarity : np_float) : bool :=
  match max_similarity with
  | None => false
  | Some t => truthy max_similarity && np_ge similarity (Fin t)
  end.

(** [list.sort(key=lambda x: x[1], reverse=True)].  CPython reverses the
    list, sorts it stably in ascending key order with [<] as the only
    comparison, and reverses the outcome.  The ascending sort is modelled by
    the stable insertion sort; on keys that [<] orders totally (no NaN) every
    stable sort gives the same list, and so does it when all keys are NaN
    (nothing moves).  With a NaN among other keys the outcome of CPython's
    sort depends on which comparisons its run detection and binary insertion
    make, which this model does not follow: the order of a ranking is stated
    only where no key or every key is NaN, and beyond that only that the
    ranking is a permutation of what was accumulated. *)
Fixpoint insort (x : Path * np_float) (sorted : list (Path * np_float))
    : list (Path * np_float) :=
  match sorted with
  | [] => [x]
  | y :: rest =>
      if np_lt x.2 y.2 then x :: y :: rest else y :: insort x rest
  end.

Definition sort_ascending (l : list (Path * np_float)) : list (Path * np_float) :=
  foldl (fun sorted x => insort x sorted) [] l.

Definition list_sort (reverse : bool) (l : list (Path * np_float))
    : list (Path * np_float) :=
  if reverse then List.rev (sort_ascending (List.rev l)) else sort_ascending l.
Arguments list_sort : simpl never.

(** The [for] loop of [calc_similarities] over [vectors.items()], with the
    list [comparison_results] accumulated so far. *)
Fixpoint scan (reference_vector : ndarray) (items : list (Path * ndarray))
    (min_similarity max_similarity : option R)
    (cosine_penalty_factor euclidean_penalty_factor : R)
    (comparison_results : list (Path * np_float))
    : result (list (Path * np_float)) :=
  match items with
  | [] => Ok (list_sort true comparison_results)
  | (path, vector) :: items' =>
      try! similarity :=
        calc_similarity reference_vector vector
          cosine_penalty_factor euclidean_penalty_factor in
      if below_min min_similarity similarity then
        scan reference_vector items' min_similarity max_similarity
          cosine_penalty_factor euclidean_penalty_factor comparison_results
      else if reaches_max max_similarity similarity then
        Ok [(path, similarity)]
      else
        scan reference_vector items' min_similarity max_similarity
          cosine_penalty_factor euclidean_penalty_factor
          (comparison_results ++ [(path, similarity)])
  end.

Definition calc_similarities (reference_vector : ndarray)
    (vectors : list (Path * ndarray))
    (min_similarity max_similarity : option R)
    (cosine_penalty_factor euclidean_penalty_factor : R)
    : result (list (Path * np_float)) :=
  scan reference_vector vectors min_similarity max_similarity
    cosine_penalty_factor euclidean_penalty_factor [].

(** Defaults of the keyword arguments of [calc_similarities]. *)
Definition default_min_similarity : option R := Some 0.2.
Definition default_max_similarity : option R := Some 0.9.
Definition default_cosine_penalty_factor : R := 4.
Definition default_euclidean_penalty_factor : R := 0.2.

End Similarity.

(* ===================================================================== *)
(** ** finder/utils/utils.py *)
(* ===================================================================== *)

Module Utils.
#[local] Open Scope string_scope.

Definition dot_char : ascii := "."%char.
Definition slash_char : ascii := "/"%char.
Definition newline_char : ascii := "010"%char.

(** [s.rfind('.')]: index of the last dot. *)
Fixpoint rfind_dot (s : string) : option nat :=
  match s with
  | EmptyString => None
  | String c s' =>
      match rfind_dot s' with
      | Some i => Some (S i)
      | None => if Ascii.eqb c dot_char then Some 0%nat else None
      end
  end.

(** [PurePath.suffix] of a file name: from the last dot on, unless that dot
    is the first or the last character. *)
Definition suffix (name : string) : string :=
  match rfind_dot name with
  | Some (S i) =>
      if Nat.ltb (S i) (String.length name - 1)
      then String.substring (S i) (String.length name - S i) name
      else ""
  | _ => ""
  end.

(** [PurePath.stem]: the name without its suffix. *)
Definition stem (name : string) : string :=
  String.substring 0 (String.length name - String.length (suffix name)) name.

(** [PurePath.with_suffix]: the stem followed by the new suffix. *)
Definition with_suffix (name new_suffix : string) : string :=
  stem name +:+ new_suffix.

Definition image_extensions : list string := ["png"; "jpg"; "jpeg"].

Definition normalize_extension (ext : string) : string :=
  if String.prefix "." ext then ext else "." +:+ ext.

(** [list_files], on the names that [directory.iterdir()] yields.  A
    directory is flat here: every entry is a regular file, so the
    [file.is_file()] test of the source holds of each and is left out. *)
Definition list_files (iterdir : list string) (extensions : list string)
    : list string :=
  let normalized_extensions := normalize_extension <$> extensions in
  filter (fun file => suffix file ∈ normalized_extensions) iterdir.

(** The names of a directory in the order [iterdir] yields them. *)
Definition iterdir {A : Type} (directory : gmap string A) : list string :=
  (map_to_list directory).*1.

(** [s.endswith(suffix)] *)
Fixpoint endswith (s suffix : string) : bool :=
  String.eqb s suffix ||
  match s with
  | EmptyString => false
  | String _ s' => endswith s' suffix
  end.

(** [s.rstrip("/")] *)
Fixpoint rstrip_slash (s : string) : string :=
  match s with
  | EmptyString => EmptyString
  | String c s' =>
      match rstrip_slash s' with
      | EmptyString => if Ascii.eqb c slash_char then EmptyString else String c EmptyString
      | rest => String c rest
      end
  end.

Fixpoint strip_prefix (p s : string) : option string :=
  match p, s with
  | EmptyString, _ => Some s
  | String a p', String b s' => if Ascii.eqb a b then strip_prefix p' s' else None
  | String _ _, EmptyString => None
  end.

(** Drop one final newline: [$] also matches just before it. *)
Fixpoint strip_final_newline (s : string) : string :=
  match s with
  | EmptyString => EmptyString
  | String c EmptyString => if Ascii.eqb c newline_char then EmptyString else s
  | String c s' => String c (strip_final_newline s')
  end.

Definition is_alnum (c : ascii) : bool :=
  let n := nat_of_ascii c in
  (Nat.leb 48 n && Nat.leb n 57) || (Nat.leb 65 n && Nat.leb n 90)
  || (Nat.leb 97 n && Nat.leb n 122).

Fixpoint string_forall (p : ascii -> bool) (s : string) : bool :=
  match s with
  | EmptyString => true
  | String c s' => p c && string_forall p s'
  end.

(** A full match of [[^/]+\.[a-zA-Z0-9]+]: no slash, and the last dot has at
    least one character before it and only (at least one) letters and digits
    after it. *)
Definition matches_name (name : string) : bool :=
  string_forall (fun c => negb (Ascii.eqb c slash_char)) name &&
  match rfind_dot name with
  | Some (S i) =>
      let ext := String.substring (S (S i)) (String.length name - S (S i)) name in
      negb (String.eqb ext "") && string_forall is_alnum ext
  | _ => false
  end.

(** [re.match(rf"^{re.escape(base_url.rstrip('/'))}/image/([^/]+\.[a-zA-Z0-9]+)$", url)]
    and its group 1. *)
Definition extract_name_extension (url base_url : string) : option string :=
  match strip_prefix (rstrip_slash base_url +:+ "/image/") url with
  | None => None
  | Some rest =>
      let name := strip_final_newline rest in
      if matches_name name then Some name else None
  end.

End Utils.

(* ===================================================================== *)
(** ** Python containers and the world outside the process *)
(* ===================================================================== *)

Module Python.

(** [d[k] = v] on a dict kept in insertion order: an existing key keeps its
    place, a new key goes last. *)
Fixpoint dict_set {V : Type} (d : list (string * V)) (k : string) (v : V)
    : list (string * V) :=
  match d with
  | [] => [(k, v)]
  | (k', v') :: d' =>
      if String.eqb k' k then (k', v) :: d' else (k', v') :: dict_set d' k v
  end.

(** [l[:stop]] *)
Definition slice_to {A : Type} (l : list A) (stop : Z) : list A :=
  if (0 <=? stop)%Z then take (Z.to_nat stop) l
  else take (Z.to_nat (Z.of_nat (length l) + stop)) l.

(** [bytes] *)
Definition bytes : Type := string.

(** A decoded [PIL.Image.Image] in mode RGB. *)
Record Image : Type := mkImage {
  width : nat;
  height : nat;
  tobytes : bytes
}.

(** [np.save(file, arr)] into a directory: the name gets [.npy] appended
    unless it ends with it already. *)
Definition npy_name (file : string) : string :=
  if Utils.endswith file ".npy" then file else (file +:+ ".npy")%string.

Definition np_save (file : string) (arr : NumPy.ndarray)
    (directory : gmap string NumPy.ndarray) : gmap string NumPy.ndarray :=
  <[npy_name file := arr]> directory.

(** What lies outside the process: the two directories and the trace of
    calls to the feature extractor.  [cache_dir = None]: the directory does
    not exist. *)
Record env : Type := mkEnv {
  images_dir : gmap string bytes;
  cache_dir : option (gmap string NumPy.ndarray);
  extract_log : list Image
}.

Definition cache_files (e : env) : gmap string NumPy.ndarray :=
  default ∅ (cache_dir e).

End Python.

(* ===================================================================== *)
(** ** finder/processing/loading.py *)
(* ===================================================================== *)

Module Loading.
Import NumPy Similarity Utils Python.

Section WithExtractor.

(** [Image.open(path).convert("RGB")], on the bytes of the file. *)
Variable Image_open : bytes -> result Image.
(** The [extract_func] argument. *)
Variable extract_func : Image -> ndarray.

(** [{file.stem: file for file in files}] *)
Definition stem_index (files : list string) : gmap string string :=
  foldl (fun d file => <[stem file := file]> d) ∅ files.

(** The loop of [load_features] over [image_files], from the dict [features]
    built so far.  What can raise here is opening a file that is gone and
    [Image.open]; [np.load] of a listed cache file, [extract_func] and
    [np.save] are taken to return. *)
Fixpoint load_loop (image_files : list string) (cached_files : gmap string string)
    (save_cache load_cache : bool) (features : list (Path * ndarray)) (e : env)
    : result (list (Path * ndarray)) * env :=
  match image_files with
  | [] => (Ok features, e)
  | path :: image_files' =>
      match (if load_cache then cached_files !! path else None) with
      | Some file =>
          (* Load from cache if available *)
          match cache_files e !! file with
          | Some feats =>
              load_loop image_files' cached_files save_cache load_cache
                (dict_set features path feats) e
          | None => (Raise FileNotFoundError, e)
          end
      | None =>
          (* Extract features if cache does not exist *)
          match images_dir e !! path with
          | None => (Raise FileNotFoundError, e)
          | Some content =>
              match Image_open content with
              | Raise x => (Raise x, e)
              | Ok img =>
                  let feats := extract_func img in
                  let cache' :=
                    if save_cache
                    then Some (np_save path feats (cache_files e))
                    else cache_dir e in
                  load_loop image_files' cached_files save_cache load_cache
                    (dict_set features path feats)
                    (mkEnv (images_dir e) cache' (extract_log e ++ [img]))
              end
          end
      end
  end.

Definition load_features (save_cache load_cache : bool) (e : env)
    : result (list (Path * ndarray)) * env :=
  let image_files := list_files (iterdir (images_dir e)) image_extensions in
  let cached_files :=
    stem_index
      (match cache_dir e with
       | Some d => list_files (iterdir d) ["npy"%string]
       | None => []
       end) in
  load_loop image_files cached_files save_cache load_cache [] e.

End WithExtractor.

End Loading.

(* ===================================================================== *)
(** ** server.py *)
(* ===================================================================== *)

Module Server.
Import NumPy Similarity Utils Python Loading.

(** A [datetime], in microseconds; a [timedelta] is a difference of two. *)
Definition datetime : Type := Z.

(** [td.total_seconds() > seconds], for a whole number of seconds. *)
Definition total_seconds_gt (td : Z) (seconds : Z) : bool :=
  (seconds * 1000000 <? td)%Z.

Record RequestCacheEntry : Type := mkEntry {
  created : datetime;
  image : Image;
  hash : string;
  features : ndarray;
  saved : bool;
  tweeted : bool;
  tweet_id : option Z
}.

(** The globals [images] and [requests_cache], and the world outside. *)
Record world : Type := mkWorld {
  outside : env;
  images : list (Path * ndarray);
  requests_cache : gmap string RequestCacheEntry
}.

Definition request_expire : Z := 3 * 60.

(** What a handler answers.  [HTTPException] carries the status code. *)
Inductive response : Type :=
  | FindResponse (request_id : string) (results : list (string * np_float))
  | SaveResponse (url : string)
  | HTTPException (status_code : Z)
  | InternalServerError.

Definition is_finite (x : np_float) : bool :=
  match x with
  | Fin _ => true
  | _ => false
  end.

(** Starlette's [JSONResponse] serialises with [allow_nan=False]: a NaN or an
    infinity among the floats raises [ValueError], which no handler catches. *)
Definition JSONResponse_find (request_id : string)
    (results : list (string * np_float)) : response :=
  if forallb (fun r => is_finite r.2) results
  then FindResponse request_id results
  else InternalServerError.

(** One element of the ["results"] array of the search answer. *)
Definition result_url (base_url : string) (r : Path * np_float)
    : string * np_float :=
  ((base_url +:+ "image/" +:+ r.1)%string, r.2).

Section WithCollaborators.

Variable Image_open : bytes -> result Image.
(** [features_extractor.extract_features] *)
Variable extract_features : Image -> ndarray.
Variable load_image_from_url : string -> result Image.
(** [bytes_to_hash(b).hex()] *)
Variable bytes_to_hash_hex : bytes -> string.
(** The bytes that [image.save(byte_io, format="JPEG")] writes. *)
Variable jpeg_bytes : Image -> bytes.

(** [find_image]; [uuid1] is what [uuid.uuid1()] returns to this call and
    [now] what [datetime.now()] does. *)
Definition find_image (base_url url : string) (max_results : Z)
    (max_similarity : option R) (uuid1 : string) (now : datetime) (w : world)
    : response * world :=
  let request_id := uuid1 in
  match extract_name_extension url base_url with
  | Some file_name =>
      match images_dir (outside w) !! file_name with
      | None => (HTTPException 404, w)
      | Some _ =>
          let image_url := (base_url +:+ "image/" +:+ file_name)%string in
          (JSONResponse_find request_id [(image_url, Fin 1)], w)
      end
  | None =>
      match load_image_from_url url with
      | Raise _ => (HTTPException 400, w)
      | Ok image =>
          let features := extract_features image in
          let outside' :=
            mkEnv (images_dir (outside w)) (cache_dir (outside w))
              (extract_log (outside w) ++ [image]) in
          match
            calc_similarities features (images w)
              default_min_similarity max_similarity
              default_cosine_penalty_factor default_euclidean_penalty_factor
          with
          | Raise _ => (HTTPException 400, mkWorld outside' (images w) (requests_cache w))
          | Ok ranked =>
              let results := slice_to ranked max_results in
              let image_hash := bytes_to_hash_hex (tobytes image) in
              let is_exact_match :=
                match results with
                | [] => false
                | (_, similarity) :: _ => np_ge similarity (Fin 0.99)
                end in
              let entry :=
                mkEntry now image image_hash features
                  is_exact_match is_exact_match None in
              (JSONResponse_find request_id (result_url base_url <$> results),
               mkWorld outside' (images w) (<[request_id := entry]> (requests_cache w)))
          end
      end
  end.

(** [save_image] *)
Definition save_image (base_url request_id : string) (w : world)
    : response * world :=
  match requests_cache w !! request_id with
  | None => (HTTPException 404, w)
  | Some cache =>
      let save_path := with_suffix (hash cache) ".jpeg" in
      let features_save_path := with_suffix (hash cache) ".jpeg.npy" in
      (* both parents are created when absent *)
      let cache_files0 := cache_files (outside w) in
      let url := (base_url +:+ "image/" +:+ save_path)%string in
      if bool_decide (is_Some (images_dir (outside w) !! save_path)) &&
         bool_decide (is_Some (cache_files0 !! features_save_path))
      then
        (HTTPException 409,
         mkWorld (mkEnv (images_dir (outside w)) (Some cache_files0)
                    (extract_log (outside w)))
           (images w) (requests_cache w))
      else
        let images_dir' := <[save_path := jpeg_bytes (image cache)]> (images_dir (outside w)) in
        let cache_files' := np_save features_save_path (features cache) cache_files0 in
        let images' := dict_set (images w) save_path (features cache) in
        let cache' :=
          mkEntry (created cache) (image cache) (hash cache) (features cache)
            true (tweeted cache) (tweet_id cache) in
        let requests_cache' := <[request_id := cache']> (requests_cache w) in
        let requests_cache'' :=
          if saved cache' && tweeted cache'
          then delete request_id requests_cache'
          else requests_cache' in
        (SaveResponse url,
         mkWorld (mkEnv images_dir' (Some cache_files') (extract_log (outside w)))
           images' requests_cache'')
  end.

(** [update_images]; an exception of [load_features] leaves [images] as it
    was. *)
Definition update_images (w : world) : result unit * world :=
  if Nat.eqb (length (images w))
       (length (list_files (iterdir (images_dir (outside w))) image_extensions))
  then (Ok tt, w)
  else
    match load_features Image_open extract_features true true (outside w) with
    | (Ok loaded, outside') => (Ok tt, mkWorld outside' loaded (requests_cache w))
    | (Raise x, outside') => (Raise x, mkWorld outside' (images w) (requests_cache w))
    end.

(** The keys that [cleanup_expired_requests] collects. *)
Definition expired_keys (now : datetime) (cache : gmap string RequestCacheEntry)
    : list string :=
  (filter (fun kv : string * RequestCacheEntry =>
             total_seconds_gt (now - created kv.2) request_expire = true)
     (map_to_list cache)).*1.

(** [cleanup_expired_requests], with [now] the value of [datetime.now()]. *)
Definition cleanup_expired_requests (now : datetime) (w : world) : world :=
  mkWorld (outside w) (images w)
    (foldl (fun cache key => delete key cache) (requests_cache w)
       (expired_keys now (requests_cache w))).

(** What happens to the process, one call at a time. *)
Inductive event : Type :=
  | FindImage (base_url url : string) (max_results : Z)
      (max_similarity : option R) (uuid1 : string) (now : datetime)
  | SaveImage (base_url request_id : string)
  | UpdateImages
  | CleanupExpiredRequests (now : datetime).

Definition handle (w : world) (ev : event) : world :=
  match ev with
  | FindImage base_url url max_results max_similarity uuid1 now =>
      (find_image base_url url max_results max_similarity uuid1 now w).2
  | SaveImage base_url request_id => (save_image base_url request_id w).2
  | UpdateImages => (update_images w).2
  | CleanupExpiredRequests now => cleanup_expired_requests now w
  end.

Definition run (w : world) (evs : list event) : world := foldl handle w evs.

(** The identifiers that [uuid.uuid1()] handed out along a trace. *)
Definition uuids_of (evs : list event) : list string :=
  omap (fun ev =>
          match ev with
          | FindImage _ _ _ _ uuid1 _ => Some uuid1
          | _ => None
          end) evs.

End WithCollaborators.

End Server.

(* ===================================================================== *)
(** ** The scoring algorithm as the specification writes it *)
(* ===================================================================== *)

Module Scoring.
#[local] Open Scope R_scope.

Definition dot (a b : list R) : R := foldr Rplus 0 (zip_with Rmult a b).

Definition norm (a : list R) : R := sqrt (dot a a).

(** The score of section 4.2, line by line, over the reals. *)
Definition score (a b : list R)
    (cosine_penalty_factor euclidean_penalty_factor : R) : R :=
  let cosine_similarity := dot a b / (norm a * norm b) in
  let cosine_distance := 1 - cosine_similarity in
  let adj_cosine := exp (- cosine_penalty_factor * cosine_distance) in
  let euclidean_distance := norm (zip_with Rminus a b) in
  let adj_euclidean := 1 / (1 + euclidean_penalty_factor * euclidean_distance) in
  (adj_cosine + adj_euclidean) / 2.

End Scoring.

(* ===================================================================== *)
(** ** Vocabulary of the statements *)
(* ===================================================================== *)

Module Vocabulary.
Import NumPy Similarity.

(** [x <= y] on sort keys, as [not (y < x)]. *)
Definition key_le (x y : Path * np_float) : Prop := np_lt y.2 x.2 = false.

Definition not_nan (x : np_float) : Prop := x <> NaN.

(** [r] is the published entry [item] with the score it gets against
    [reference_vector]. *)
Definition scored_by (reference_vector : ndarray) (cpf epf : R)
    (item : Path * ndarray) (r : Path * np_float) : Prop :=
  r.1 = item.1 /\ calc_similarity reference_vector item.2 cpf epf = Ok r.2.

(** Scores in descending order. *)
Definition descending (l : list (Path * np_float)) : Prop :=
  StronglySorted (fun x y => np_ge x.2 y.2 = true) l.

(** All components are zero. *)
Definition all_zero (v : ndarray) : Prop := Forall (fun x => x = 0%R) v.

(** Some component is not zero. *)
Definition non_zero (v : ndarray) : Prop := Exists (fun x => x <> 0%R) v.

End Vocabulary.

(* ===================================================================== *)
(** ** Concrete worlds for the examples *)
(* ===================================================================== *)

Module Examples.
Import NumPy Similarity Utils Python Loading Server.

(** A pending entry for the examples: created at time 0, no features. *)
Definition example_entry (saved tweeted : bool) : RequestCacheEntry :=
  mkEntry 0%Z (mkImage 1 1 "rgb") "00ff" [] saved tweeted None.

Definition example_world (saved tweeted : bool) : world :=
  mkWorld (mkEnv ∅ (Some ∅) []) [] {["req-1" := example_entry saved tweeted]}.

(** Collaborators for the examples: a decoder that refuses the empty file,
    an extractor that returns the length of the pixel buffer, a download
    that always yields the same image, and stand-ins for the hash and the
    JPEG encoder. *)
Definition example_open (b : bytes) : result Image :=
  if String.eqb b "" then Raise UnidentifiedImageError else Ok (mkImage 1 1 b).

Definition example_extract (img : Image) : ndarray :=
  [INR (String.length (tobytes img))].

Definition example_download (url : string) : result Image :=
  Ok (mkImage 1 1 "q").

Definition example_hash (b : bytes) : string := "00ff".

Definition example_jpeg (img : Image) : bytes := tobytes img.

(** Four files in the images directory, three of them images, one of which
    has its vector in the cache directory already. *)
Definition example_env : env :=
  mkEnv
    (<["a.png" := "aa"]> (<["b.jpg" := "bbb"]> (<["notes.txt" := "n"]>
       (<["c.jpeg" := "c"]> ∅))))
    (Some (<["b.jpg.npy" := [7%R]]> ∅))
    [].

(** The same after one run of [load_features]. *)
Definition example_env_loaded : env :=
  mkEnv (images_dir example_env)
    (Some (<["c.jpeg.npy" := [1%R]]> (<["a.png.npy" := [2%R]]>
       (<["b.jpg.npy" := [7%R]]> ∅))))
    [mkImage 1 1 "c"; mkImage 1 1 "aa"].

Definition example_features : list (Path * ndarray) :=
  [("c.jpeg", [1%R]); ("a.png", [2%R]); ("b.jpg", [7%R])].

(** An index of three one-component vectors. *)
Definition example_index : list (Path * ndarray) :=
  [("a.png", [3%R]); ("b.png", [1.1%R]); ("c.png", [1%R])].

(** The score of a positive one-component vector against the query [[1]],
    with the ranking defaults. *)
Definition example_score (v : R) : np_float :=
  Fin ((1 + 1 / (1 + 0.2 * Rabs (1 - v))) / 2)%R.

Definition example_scores : list (Path * np_float) :=
  [("a.png", example_score 3); ("b.png", example_score 1.1);
   ("c.png", example_score 1)].

(** The index names a file that is gone; the directory holds another one. *)
Definition swapped_world : world :=
  mkWorld (mkEnv {["new.png" := "x"]} None []) [("old.png", [])] ∅.

(** One image on disk, nothing published yet. *)
Definition unpublished_world : world :=
  mkWorld (mkEnv {["new.png" := "x"]} None []) [] ∅.

(** [unpublished_world] after one reconciliation step. *)
Definition published_world : world :=
  mkWorld
    (mkEnv {["new.png" := "x"]} (Some {["new.png.npy" := [1%R]]})
       [mkImage 1 1 "x"])
    [("new.png", [1%R])] ∅.

(** What the server handles after the search of the example. *)
Definition example_later : list event :=
  [CleanupExpiredRequests 5%Z;
   SaveImage "http://h/" "no-such-request";
   FindImage "http://h/" "http://elsewhere/y.png" 5%Z None "uuid-2" 7%Z;
   UpdateImages].

(** The server holds [a.png]; nothing is pending. *)
Definition serving_world : world :=
  mkWorld (mkEnv {["a.png" := "aa"]} (Some ∅) []) [("a.png", [2%R])] ∅.

(** Three published vectors, nothing pending. *)
Definition indexed_world : world :=
  mkWorld (mkEnv ∅ (Some ∅) []) example_index ∅.

(** One published image whose vector is all zeros, nothing pending. *)
Definition poisoned_world : world :=
  mkWorld (mkEnv {["z.png" := "z"]} (Some {["z.png.npy" := [0%R]]}) [])
    [("z.png", [0%R])] ∅.

(** [poisoned_world] after the search of the example, made at time 3 under
    the identifier [uuid-1]. *)
Definition poisoned_world_searched : world :=
  mkWorld
    (mkEnv {["z.png" := "z"]} (Some {["z.png.npy" := [0%R]]})
       [mkImage 1 1 "q"])
    [("z.png", [0%R])]
    {["uuid-1" := mkEntry 3%Z (mkImage 1 1 "q") "00ff" [1%R] false false None]}.

End Examples.

(* ===================================================================== *)
(** ** Invariants of the server state *)
(* ===================================================================== *)

Module Invariants.
Import NumPy Similarity Utils Python Loading Server.

(** No path is published twice. *)
Definition index_keys_unique (w : world) : Prop := NoDup (images w).*1.

(** Every published vector is durable: its image file is in the images
    directory and the cache directory holds that vector under the image's
    name followed by [.npy]. *)
Definition index_durable (w : world) : Prop :=
  forall path vector,
    (path, vector) ∈ images w ->
    is_Some (images_dir (outside w) !! path) /\
    cache_files (outside w) !! (path +:+ ".npy") = Some vector.

(** Every pending entry carries the fingerprint and the hash of its own
    image, and is marked tweeted only if it is marked saved. *)
Definition pending_consistent (extract_features : Image -> ndarray)
    (bytes_to_hash_hex : bytes -> string) (w : world) : Prop :=
  forall request_id entry,
    requests_cache w !! request_id = Some entry ->
    features entry = extract_features (image entry) /\
    hash entry = bytes_to_hash_hex (tobytes (image entry)) /\
    (tweeted entry = true -> saved entry = true).

(** [created] of every pending entry is at most [age] microseconds before
    [now]. *)
Definition pending_younger_than (now : datetime) (age : Z) (w : world) : Prop :=
  forall request_id entry,
    requests_cache w !! request_id = Some entry ->
    (now - created entry <= age)%Z.

End Invariants.

(* ===================================================================== *)
(** * Properties *)
(* ===================================================================== *)

Import NumPy Similarity Utils Python Loading Server Vocabulary Examples.

(** ** Arithmetic of numpy scalars *)

Section ScalarFacts.
Open Scope R_scope.

Lemma Rsign_pos x : 0 < x -> Rsign x = Pos.
Proof.
  intros Hx. unfold Rsign.
  destruct (total_order_T x 0) as [[Hlt | Heq] | Hgt]; [lra | lra | reflexivity].
Qed.

Lemma Rsign_zero : Rsign 0 = Zero.
Proof.
  unfold Rsign.
  destruct (total_order_T 0 0) as [[Hlt | Heq] | Hgt]; [lra | reflexivity | lra].
Qed.

Lemma Rsign_neg x : x < 0 -> Rsign x = Neg.
Proof.
  intros Hx. unfold Rsign.
  destruct (total_order_T x 0) as [[Hlt | Heq] | Hgt]; [reflexivity | lra | lra].
Qed.

Lemma np_div_fin a b : 0 < b -> np_div (Fin a) (Fin b) = Fin (a / b).
Proof. intros Hb. unfold np_div. by rewrite Rsign_pos. Qed.

Lemma np_mul_fin a b : np_mul (Fin a) (Fin b) = Fin (a * b).
Proof. reflexivity. Qed.

Lemma np_add_fin a b : np_add (Fin a) (Fin b) = Fin (a + b).
Proof. reflexivity. Qed.

Lemma np_sub_fin a b : np_sub (Fin a) (Fin b) = Fin (a + - b).
Proof. reflexivity. Qed.

Lemma np_exp_fin a : np_exp (Fin a) = Fin (exp a).
Proof. reflexivity. Qed.

Lemma np_div_zero_zero : np_div (Fin 0) (Fin 0) = NaN.
Proof. unfold np_div. by rewrite Rsign_zero. Qed.

Lemma np_lt_fin a b : np_lt (Fin a) (Fin b) = true <-> a < b.
Proof. unfold np_lt. destruct (Rlt_dec a b); split; auto; discriminate. Qed.

Lemma np_lt_fin_false a b : np_lt (Fin a) (Fin b) = false <-> b <= a.
Proof.
  unfold np_lt. destruct (Rlt_dec a b); split; auto; try discriminate; lra.
Qed.

Lemma np_ge_fin a b : np_ge (Fin a) (Fin b) = true <-> b <= a.
Proof. unfold np_ge. destruct (Rle_dec b a); split; auto; discriminate. Qed.

Lemma np_ge_fin_false a b : np_ge (Fin a) (Fin b) = false <-> a < b.
Proof.
  unfold np_ge. destruct (Rle_dec b a); split; auto; try discriminate; lra.
Qed.

Lemma Rdiv_le_one x y : 0 < y -> x <= y -> x / y <= 1.
Proof.
  intros Hy Hxy. unfold Rdiv.
  replace 1 with (y * / y) by (apply Rinv_r; lra).
  apply Rmult_le_compat_r; [| done].
  left. by apply Rinv_0_lt_compat.
Qed.

Lemma exp_le_one x : x <= 0 -> exp x <= 1.
Proof.
  intros [Hx | ->]; [| rewrite exp_0; lra].
  left. rewrite <- exp_0 at 1. by apply exp_increasing.
Qed.

Lemma truthy_Some t : t <> 0 -> truthy (Some t) = true.
Proof. intros Ht. unfold truthy. by destruct (Req_dec_T t 0). Qed.

Lemma truthy_zero : truthy (Some 0) = false.
Proof. unfold truthy. by destruct (Req_dec_T 0 0). Qed.

End ScalarFacts.

(** ** Vectors: the Cauchy-Schwarz inequality *)

Section VectorFacts.
Open Scope R_scope.

Lemma sum_products_comm (a b : ndarray) : sum_products a b = sum_products b a.
Proof.
  revert b. induction a as [| x a IH]; intros [| y b]; simpl; try reflexivity.
  rewrite IH. ring.
Qed.

Lemma sum_squares_nonneg (a : ndarray) : 0 <= sum_products a a.
Proof. induction a as [| x a IH]; simpl; [lra | nra]. Qed.

Lemma sum_squares_pos (a : ndarray) : non_zero a -> 0 < sum_products a a.
Proof.
  induction 1 as [x a Hx | x a _ IH]; simpl.
  - pose proof (sum_squares_nonneg a). nra.
  - nra.
Qed.

Lemma sum_squares_zero (a : ndarray) : all_zero a -> sum_products a a = 0.
Proof. induction 1 as [| x a Hx _ IH]; simpl; [reflexivity | subst; lra]. Qed.

Lemma sum_products_zero_l (a b : ndarray) :
  all_zero a -> sum_products a b = 0.
Proof.
  intros Ha. revert b.
  induction Ha as [| x a Hx _ IH]; intros [| y b]; simpl; try reflexivity.
  rewrite IH. subst. lra.
Qed.

Lemma cauchy_schwarz_sq (a b : ndarray) :
  (sum_products a b)² <= sum_products a a * sum_products b b.
Proof.
  revert b. induction a as [| x a IH]; intros [| y b]; simpl;
    unfold Rsqr in *; try lra.
  specialize (IH b).
  { pose proof (sum_squares_nonneg a) as HA.
    pose proof (sum_squares_nonneg b) as HB.
    set (d := sum_products a b) in *.
    set (A := sum_products a a) in *.
    set (B := sum_products b b) in *.
    assert (Hmix : 2 * (x * y * d) <= x * x * B + y * y * A).
    { pose proof (Rle_0_sqr x) as Hx. pose proof (Rle_0_sqr y) as Hy.
      unfold Rsqr in Hx, Hy.
      apply Rsqr_incr_0_var.
      - pose proof (Rle_0_sqr (x * x * B - y * y * A)) as Hsq.
        assert (Hd : x * x * (y * y) * (d * d) <= x * x * (y * y) * (A * B)).
        { apply Rmult_le_compat_l; [by apply Rmult_le_pos | lra]. }
        unfold Rsqr in *. lra.
      - apply Rplus_le_le_0_compat; by apply Rmult_le_pos. }
    lra. }
Qed.

Lemma cauchy_schwarz (a b : ndarray) :
  sum_products a b <= linalg_norm a * linalg_norm b.
Proof.
  unfold linalg_norm.
  rewrite <- sqrt_mult by apply sum_squares_nonneg.
  apply Rsqr_incr_0_var.
  - rewrite Rsqr_sqrt.
    + apply cauchy_schwarz_sq.
    + apply Rmult_le_pos; apply sum_squares_nonneg.
  - apply sqrt_pos.
Qed.

Lemma linalg_norm_pos (a : ndarray) : non_zero a -> 0 < linalg_norm a.
Proof. intros Ha. apply sqrt_lt_R0. by apply sum_squares_pos. Qed.

Lemma linalg_norm_nonneg (a : ndarray) : 0 <= linalg_norm a.
Proof. apply sqrt_pos. Qed.

Lemma linalg_norm_zero (a : ndarray) : all_zero a -> linalg_norm a = 0.
Proof. intros Ha. unfold linalg_norm. rewrite sum_squares_zero by done. apply sqrt_0. Qed.

End VectorFacts.

(** ** [calc_similarity] *)

Section CalcSimilarity.
Open Scope R_scope.

Lemma sum_products_dot (a b : ndarray) : sum_products a b = Scoring.dot a b.
Proof.
  unfold Scoring.dot. revert b.
  induction a as [| x a IH]; intros [| y b]; simpl; try reflexivity.
  by rewrite IH.
Qed.

Lemma linalg_norm_norm (a : ndarray) : linalg_norm a = Scoring.norm a.
Proof. unfold linalg_norm, Scoring.norm. by rewrite sum_products_dot. Qed.

(** In the exact arithmetic of this model: on vectors of one length with
    non-zero norms and a non-negative euclidean factor, no division meets a
    zero divisor and the expression of the code is the score as the
    specification writes it.  Nothing follows from this about the rounding,
    overflow or underflow of the float64 evaluation. *)
Lemma calc_similarity_score (a b : ndarray) (cpf epf : R) :
  length a = length b ->
  0 < linalg_norm a -> 0 < linalg_norm b -> 0 <= epf ->
  calc_similarity a b cpf epf = Ok (Fin (Scoring.score a b cpf epf)).
Proof.
  intros Hlen Ha Hb Hepf.
  unfold calc_similarity, np_dot, np_subtract.
  rewrite Hlen, Nat.eqb_refl. cbn [rbind].
  pose proof (linalg_norm_nonneg (zip_with Rminus a b)) as Hd.
  rewrite !np_mul_fin.
  rewrite (np_div_fin (sum_products a b)) by (by apply Rmult_lt_0_compat).
  rewrite np_sub_fin, np_mul_fin, np_exp_fin, np_add_fin.
  rewrite (np_div_fin 1) by nra.
  rewrite np_add_fin, np_div_fin by lra.
  unfold Scoring.score.
  rewrite <- !linalg_norm_norm, <- sum_products_dot.
  reflexivity.
Qed.

(** The range of that score, again over the reals. *)
Lemma score_range (a b : ndarray) (cpf epf : R) :
  0 < linalg_norm a -> 0 < linalg_norm b -> 0 <= cpf -> 0 <= epf ->
  0 < Scoring.score a b cpf epf <= 1.
Proof.
  intros Ha Hb Hcpf Hepf.
  unfold Scoring.score.
  rewrite <- !linalg_norm_norm, <- sum_products_dot.
  set (cs := sum_products a b / (linalg_norm a * linalg_norm b)).
  set (ed := linalg_norm (zip_with Rminus a b)).
  assert (Hcs : cs <= 1).
  { unfold cs. apply Rdiv_le_one; [by apply Rmult_lt_0_compat |].
    apply cauchy_schwarz. }
  assert (Hed : 0 <= ed) by apply linalg_norm_nonneg.
  pose proof (exp_pos (- cpf * (1 - cs))) as Hexp.
  assert (Hexp1 : exp (- cpf * (1 - cs)) <= 1).
  { apply exp_le_one. nra. }
  assert (Hden : 1 <= 1 + epf * ed) by nra.
  assert (Hinv : 0 < 1 / (1 + epf * ed) <= 1).
  { split.
    - apply Rdiv_lt_0_compat; lra.
    - apply Rdiv_le_one; lra. }
  lra.
Qed.

End CalcSimilarity.

(** ** [list.sort] *)

Section Sorting.

Lemma np_lt_total (x y : np_float) :
  not_nan x -> not_nan y -> np_lt x y = false \/ np_lt y x = false.
Proof.
  unfold not_nan. destruct x, y; simpl; intros; auto; try congruence.
  destruct (Rlt_dec x x0), (Rlt_dec x0 x); auto. lra.
Qed.

Lemma np_lt_false_trans (x y z : np_float) :
  not_nan x -> not_nan y -> not_nan z ->
  np_lt y x = false -> np_lt z y = false -> np_lt z x = false.
Proof.
  unfold not_nan.
  destruct x, y, z; simpl; intros; auto; try congruence.
  repeat match goal with |- context [Rlt_dec ?a ?b] => destruct (Rlt_dec a b) end;
  repeat match goal with H : context [Rlt_dec ?a ?b] |- _ => destruct (Rlt_dec a b) end;
    auto; try congruence; lra.
Qed.

Lemma np_lt_false_ge (x y : np_float) :
  not_nan x -> not_nan y -> np_lt x y = false <-> np_ge x y = true.
Proof.
  unfold not_nan. destruct x, y; simpl; intros; split; auto; try congruence.
  - destruct (Rlt_dec x x0), (Rle_dec x0 x); auto; lra.
  - destruct (Rlt_dec x x0), (Rle_dec x0 x); auto; try congruence; lra.
Qed.

Lemma insort_perm x l : insort x l ≡ₚ x :: l.
Proof.
  induction l as [| y l IH]; simpl; [done |].
  destruct (np_lt x.2 y.2); [done |].
  rewrite IH. apply Permutation_swap.
Qed.

Lemma sort_ascending_snoc l x :
  sort_ascending (l ++ [x]) = insort x (sort_ascending l).
Proof. unfold sort_ascending. by rewrite foldl_app. Qed.

Lemma sort_ascending_perm l : sort_ascending l ≡ₚ l.
Proof.
  induction l as [| x l IH] using rev_ind; [done |].
  rewrite sort_ascending_snoc, insort_perm, IH.
  by rewrite Permutation_app_comm.
Qed.

Lemma Permutation_rev' {A} (l : list A) : List.rev l ≡ₚ l.
Proof. symmetry. apply Permutation_rev. Qed.

Lemma elem_of_rev {A} (x : A) l : x ∈ List.rev l <-> x ∈ l.
Proof. by rewrite Permutation_rev'. Qed.

Lemma list_sort_perm reverse l : list_sort reverse l ≡ₚ l.
Proof.
  unfold list_sort. destruct reverse.
  - by rewrite Permutation_rev', sort_ascending_perm, Permutation_rev'.
  - apply sort_ascending_perm.
Qed.

Lemma insort_sorted x l :
  not_nan x.2 -> Forall (fun y => not_nan y.2) l ->
  StronglySorted key_le l -> StronglySorted key_le (insort x l).
Proof.
  intros Hx Hl Hs. induction Hs as [| y l Hs IH Hy]; simpl.
  - repeat constructor.
  - apply Forall_cons in Hl as [Hyn Hl].
    destruct (np_lt x.2 y.2) eqn:Hlt.
    + constructor; [by constructor |].
      assert (Hxy : key_le x y).
      { unfold key_le. destruct (np_lt_total x.2 y.2) as [H | H]; congruence. }
      constructor; [done |].
      rewrite Forall_forall in Hy, Hl. apply Forall_forall. intros z Hz.
      unfold key_le in *.
      apply np_lt_false_trans with y.2; auto.
    + constructor; [by apply IH |].
      rewrite insort_perm. by constructor.
Qed.

Lemma sort_ascending_sorted l :
  Forall (fun y => not_nan y.2) l -> StronglySorted key_le (sort_ascending l).
Proof.
  induction l as [| x l IH] using rev_ind; intros Hl; [constructor |].
  apply Forall_app in Hl as [Hl Hx]. apply Forall_cons in Hx as [Hx _].
  rewrite sort_ascending_snoc. apply insort_sorted; auto.
  by rewrite sort_ascending_perm.
Qed.

Lemma StronglySorted_rev {A} (R : A -> A -> Prop) l :
  StronglySorted R l -> StronglySorted (fun x y => R y x) (List.rev l).
Proof.
  induction 1 as [| x l Hs IH Hx]; simpl; [constructor |].
  apply StronglySorted_app_2; [| done | repeat constructor].
  intros y z Hy Hz. apply list_elem_of_singleton in Hz as ->.
  rewrite Forall_forall in Hx. apply Hx. by apply (proj1 (elem_of_rev _ _)).
Qed.

(** Without NaN among the keys, the reverse sort yields descending scores. *)
Lemma list_sort_descending l :
  Forall (fun y => not_nan y.2) l -> descending (list_sort true l).
Proof.
  intros Hl. unfold descending, list_sort.
  assert (Hn : Forall (fun y => not_nan y.2) (List.rev (sort_ascending (List.rev l)))).
  { by rewrite Permutation_rev', sort_ascending_perm, Permutation_rev'. }
  assert (Hs : StronglySorted (fun x y => key_le y x)
                 (List.rev (sort_ascending (List.rev l)))).
  { apply StronglySorted_rev, sort_ascending_sorted. by rewrite Permutation_rev'. }
  revert Hn. induction Hs as [| x l' Hs IH Hx]; intros Hn; constructor.
  - apply IH. by apply Forall_cons in Hn as [_ Hn].
  - apply Forall_cons in Hn as [Hxn Hn].
    rewrite Forall_forall in Hx, Hn. apply Forall_forall. intros y Hy.
    apply np_lt_false_ge; auto. by apply Hx.
Qed.

(** A new element that is below no element already there goes last. *)
Lemma insort_last x (l : list (Path * np_float)) :
  Forall (fun y => np_lt x.2 y.2 = false) l -> insort x l = (l ++ [x])%list.
Proof.
  induction 1 as [| y l Hy _ IH]; simpl; [done |]. by rewrite Hy, IH.
Qed.

(** When no key is below another (all NaN, or all equal) the sort leaves the
    list as it is. *)
Lemma list_sort_incomparable reverse l :
  (forall x y, x ∈ l -> y ∈ l -> np_lt x.2 y.2 = false) ->
  list_sort reverse l = l.
Proof.
  intros Hl.
  assert (Hasc : forall l', (forall x y, x ∈ l' -> y ∈ l' -> np_lt x.2 y.2 = false) ->
                            sort_ascending l' = l').
  { induction l' as [| x l' IH] using rev_ind; intros Hl'; [done |].
    rewrite sort_ascending_snoc, IH.
    - apply insort_last. apply Forall_forall. intros y Hy.
      apply Hl'; set_solver.
    - intros y z Hy Hz. apply Hl'; set_solver. }
  unfold list_sort. destruct reverse; [| by apply Hasc].
  rewrite Hasc, rev_involutive; [done |].
  intros x y Hx Hy. apply Hl; by apply (proj1 (elem_of_rev _ _)).
Qed.

End Sorting.

(** ** [calc_similarities] *)

Lemma filter_ext_elem {A} (P Q : A -> Prop)
    `{!forall x, Decision (P x)} `{!forall x, Decision (Q x)} (l : list A) :
  (forall x, x ∈ l -> P x <-> Q x) -> filter P l = filter Q l.
Proof.
  induction l as [| x l IH]; intros Hpq; [done |].
  assert (Hx : P x <-> Q x) by (apply Hpq; by left).
  assert (Hl : filter P l = filter Q l).
  { apply IH. intros y Hy. apply Hpq. by right. }
  destruct (decide (P x)) as [HP | HP].
  - rewrite !filter_cons_True by tauto. by rewrite Hl.
  - rewrite !filter_cons_False by tauto. done.
Qed.

Lemma filter_all {A} (P : A -> Prop) `{!forall x, Decision (P x)} (l : list A) :
  Forall P l -> filter P l = l.
Proof.
  induction 1 as [| x l Hx _ IH]; [done |].
  by rewrite filter_cons_True, IH.
Qed.

Section Scan.
Open Scope R_scope.

Variable reference_vector : ndarray.
Variables min_similarity max_similarity : option R.
Variables cpf epf : R.

Local Abbreviation scan_from := (fun items acc =>
  scan reference_vector items min_similarity max_similarity cpf epf acc).
Local Abbreviation kept :=
  (fun r : Path * np_float => below_min min_similarity r.2 = false).

(** A scan in which no entry that passes the minimum reaches the maximum
    runs to the end: it returns, sorted, what was accumulated before it and
    the entries that pass the minimum. *)
Lemma scan_to_the_end items rs acc :
  Forall2 (scored_by reference_vector cpf epf) items rs ->
  Forall (fun r => kept r -> reaches_max max_similarity r.2 = false) rs ->
  scan_from items acc = Ok (list_sort true (acc ++ filter kept rs)).
Proof.
  intros Hsc. revert acc.
  induction Hsc as [| [path vector] [p s] items rs [Hp Hs] _ IH]; intros acc Hno.
  - simpl. by rewrite app_nil_r.
  - simpl in Hp, Hs. subst p.
    apply Forall_cons in Hno as [Hr Hno]. simpl in Hr.
    cbn [scan]. rewrite Hs. cbn [rbind].
    destruct (below_min min_similarity s) eqn:Hmin.
    + rewrite IH by done. rewrite filter_cons_False; [done |].
      simpl. congruence.
    + rewrite Hr by done. rewrite IH by done.
      rewrite filter_cons_True by done. by rewrite <- app_assoc.
Qed.

(** The first entry that passes the minimum and reaches the maximum ends the
    scan and is all that is returned, whatever was accumulated and whatever
    follows. *)
Lemma scan_stops_at_first_hit (pre post : list (Path * ndarray))
    path vector similarity acc :
  Forall (fun item => exists t,
            calc_similarity reference_vector item.2 cpf epf = Ok t /\
            (below_min min_similarity t = false ->
             reaches_max max_similarity t = false)) pre ->
  calc_similarity reference_vector vector cpf epf = Ok similarity ->
  below_min min_similarity similarity = false ->
  reaches_max max_similarity similarity = true ->
  scan_from (pre ++ (path, vector) :: post)%list acc = Ok [(path, similarity)].
Proof.
  intros Hpre Hs Hmin Hmax. revert acc.
  induction Hpre as [| [p v] pre (t & Ht & Hno) _ IH]; intros acc.
  - cbn [app scan]. rewrite Hs. cbn [rbind]. by rewrite Hmin, Hmax.
  - simpl in Ht, Hno. cbn [app scan]. rewrite Ht. cbn [rbind].
    destruct (below_min min_similarity t); [apply IH |].
    rewrite Hno by done. apply IH.
Qed.

(** Whatever the scan returns was accumulated before, or is a published
    entry with its score that passes the minimum. *)
Lemma scan_returns_kept items acc results r :
  scan_from items acc = Ok results -> r ∈ results ->
  r ∈ acc \/
  (kept r /\ exists item, item ∈ items /\ scored_by reference_vector cpf epf item r).
Proof.
  revert acc. induction items as [| [path vector] items IH]; intros acc Hscan Hr.
  - cbn [scan] in Hscan. injection Hscan as <-.
    left. by rewrite list_sort_perm in Hr.
  - cbn [scan] in Hscan.
    destruct (calc_similarity reference_vector vector cpf epf) as [s |] eqn:Hs;
      [| discriminate].
    cbn [rbind] in Hscan.
    destruct (below_min min_similarity s) eqn:Hmin.
    + destruct (IH _ Hscan Hr) as [? | (? & item & ? & ?)]; [by left |].
      right. split; [done |]. exists item. split; [by right | done].
    + destruct (reaches_max max_similarity s).
      * injection Hscan as <-. apply list_elem_of_singleton in Hr as ->.
        right. split; [done |]. exists (path, vector). split; [by left | done].
      * destruct (IH _ Hscan Hr) as [Hacc | (? & item & ? & ?)].
        -- apply elem_of_app in Hacc as [? | Hlast]; [by left |].
           apply list_elem_of_singleton in Hlast as ->.
           right. split; [done |]. exists (path, vector). split; [by left | done].
        -- right. split; [done |]. exists item. split; [by right | done].
Qed.

End Scan.

Section Thresholds.
Open Scope R_scope.

Lemma below_min_Some mn s : mn <> 0 -> below_min (Some mn) s = np_lt s (Fin mn).
Proof. intros Hmn. unfold below_min. by rewrite truthy_Some. Qed.

Lemma reaches_max_Some mx s : mx <> 0 -> reaches_max (Some mx) s = np_ge s (Fin mx).
Proof. intros Hmx. unfold reaches_max. by rewrite truthy_Some. Qed.

Lemma below_min_falsy mn s : truthy mn = false -> below_min mn s = false.
Proof. intros H. unfold below_min. destruct mn; [by rewrite H | done]. Qed.

Lemma reaches_max_falsy mx s : truthy mx = false -> reaches_max mx s = false.
Proof. intros H. unfold reaches_max. destruct mx; [by rewrite H | done]. Qed.

Lemma below_min_nan mn : below_min mn NaN = false.
Proof. unfold below_min. destruct mn; [| done]. simpl. apply andb_false_r. Qed.

Lemma reaches_max_nan mx : reaches_max mx NaN = false.
Proof. unfold reaches_max. destruct mx; [| done]. simpl. apply andb_false_r. Qed.

(** With the thresholds in order, a score that reaches the maximum is not
    below the minimum. *)
Lemma np_ge_not_lt mn mx s :
  mn <= mx -> np_ge s (Fin mx) = true -> np_lt s (Fin mn) = false.
Proof.
  intros Hle. destruct s as [| | | x]; simpl; try done.
  destruct (Rle_dec mx x), (Rlt_dec x mn); try done. lra.
Qed.

End Thresholds.

(** C1. A ranked scan with thresholds [min_similarity <= max_similarity]
    (both set, neither zero), over the published vectors in insertion order:
    the first entry whose score is [>= max_similarity] ends the scan and is
    the sole result, whatever was accumulated before it and whatever comes
    after it (later entries are not even scored); and no entry with a score
    [< min_similarity] is in any result. *)
Theorem first_entry_reaching_max_is_sole_result
    (reference_vector : ndarray) (mn mx cpf epf : R) :
  mn <> 0%R -> mx <> 0%R -> (mn <= mx)%R ->
  (forall (pre post : list (Path * ndarray)) path vector similarity,
     Forall (fun item => exists t,
               calc_similarity reference_vector item.2 cpf epf = Ok t /\
               np_ge t (Fin mx) = false) pre ->
     calc_similarity reference_vector vector cpf epf = Ok similarity ->
     np_ge similarity (Fin mx) = true ->
     calc_similarities reference_vector (pre ++ (path, vector) :: post)%list
       (Some mn) (Some mx) cpf epf = Ok [(path, similarity)]) /\
  (forall vectors results path similarity,
     calc_similarities reference_vector vectors (Some mn) (Some mx) cpf epf
       = Ok results ->
     (path, similarity) ∈ results ->
     np_lt similarity (Fin mn) = false).
Proof.
  intros Hmn Hmx Hle. split.
  - intros pre post path vector similarity Hpre Hs Hhit.
    unfold calc_similarities. apply scan_stops_at_first_hit.
    + eapply Forall_impl; [exact Hpre |].
      intros item (t & Ht & Hno). exists t. split; [done |].
      intros _. by rewrite reaches_max_Some.
    + done.
    + rewrite below_min_Some by done. by apply np_ge_not_lt with mx.
    + by rewrite reaches_max_Some.
  - intros vectors results path similarity Hscan Hin.
    unfold calc_similarities in Hscan.
    destruct (scan_returns_kept _ _ _ _ _ _ _ _ _ Hscan Hin) as [Hnil | [Hkept _]].
    + by apply elem_of_nil in Hnil.
    + cbn [snd] in Hkept. by rewrite below_min_Some in Hkept.
Qed.

(** ** Scores of concrete vectors *)

Section ConcreteScores.
Open Scope R_scope.

(** Two positive one-component vectors are parallel: only the euclidean term
    is below 1. *)
Lemma calc_similarity_1d x y cpf epf :
  0 < x -> 0 < y -> 0 <= epf ->
  calc_similarity [x] [y] cpf epf
    = Ok (Fin ((1 + 1 / (1 + epf * Rabs (x - y))) / 2)).
Proof.
  intros Hx Hy Hepf.
  assert (Hn : forall z, linalg_norm [z] = Rabs z).
  { intros z. unfold linalg_norm. simpl.
    replace (z * z + 0) with (Rsqr z) by (unfold Rsqr; ring).
    apply sqrt_Rsqr_abs. }
  rewrite calc_similarity_score;
    [| done | rewrite Hn, Rabs_right; lra | rewrite Hn, Rabs_right; lra | done].
  do 2 f_equal. unfold Scoring.score.
  rewrite <- !linalg_norm_norm, <- sum_products_dot.
  cbn [zip_with]. rewrite !Hn, (Rabs_right x), (Rabs_right y) by lra.
  cbn [sum_products].
  replace ((x * y + 0) / (x * y)) with 1 by (field; lra).
  replace (- cpf * (1 - 1)) with 0 by ring.
  by rewrite exp_0.
Qed.

(** An all-zero query meets [0/0] in the cosine: the score is NaN. *)
Lemma calc_similarity_zero_query (q v : ndarray) cpf epf :
  all_zero q -> length v = length q ->
  calc_similarity q v cpf epf = Ok NaN.
Proof.
  intros Hq Hlen.
  unfold calc_similarity, np_dot, np_subtract.
  rewrite Hlen, Nat.eqb_refl. cbn [rbind].
  rewrite sum_products_zero_l, linalg_norm_zero by done.
  rewrite np_mul_fin, Rmult_0_l, np_div_zero_zero.
  reflexivity.
Qed.

End ConcreteScores.

Lemma first_entry_reaching_max_is_sole_result_witness :
  exists s2 s3 : R,
    calc_similarities [1%R]
      [("a.png", [3%R]); ("b.png", [1.1%R]); ("c.png", [1%R])]
      (Some 0.2%R) (Some 0.9%R) 4 0.2 = Ok [("b.png", Fin s2)] /\
    calc_similarity [1%R] [1%R] 4 0.2 = Ok (Fin s3) /\
    (s2 < s3)%R.
Proof.
  exists ((1 + 1 / (1 + 0.2 * Rabs (1 - 1.1))) / 2)%R,
         ((1 + 1 / (1 + 0.2 * Rabs (1 - 1))) / 2)%R.
  assert (H11 : Rabs (1 - 1.1) = 0.1%R) by (rewrite Rabs_left; lra).
  assert (H13 : Rabs (1 - 3) = 2%R) by (rewrite Rabs_left; lra).
  assert (H10 : Rabs (1 - 1) = 0%R) by (rewrite Rabs_right; lra).
  split; [| split].
  - apply (proj1 (first_entry_reaching_max_is_sole_result [1%R] 0.2 0.9 4 0.2
                    ltac:(lra) ltac:(lra) ltac:(lra))
             [("a.png", [3%R])] [("c.png", [1%R])] "b.png" [1.1%R]).
    + constructor; [| constructor].
      eexists. split; [apply calc_similarity_1d; lra |].
      apply np_ge_fin_false. rewrite H13. lra.
    + apply calc_similarity_1d; lra.
    + apply np_ge_fin. rewrite H11. lra.
  - apply calc_similarity_1d; lra.
  - rewrite H11, H10. lra.
Defined.

(** C3, as the code has it.  A query whose components are all zero raises
    nothing: every published vector of the query's length gets the score
    NaN, NaN is neither below the minimum nor at the maximum, and the result
    lists every published entry with a NaN score, in insertion order. *)
Theorem zero_query_gives_nan_scores (query : ndarray)
    (vectors : list (Path * ndarray)) (min_similarity max_similarity : option R)
    (cpf epf : R) :
  all_zero query ->
  Forall (fun item => length item.2 = length query) vectors ->
  calc_similarities query vectors min_similarity max_similarity cpf epf
    = Ok ((fun item => (item.1, NaN)) <$> vectors).
Proof.
  intros Hq Hlen. unfold calc_similarities.
  rewrite scan_to_the_end with (rs := (fun item => (item.1, NaN)) <$> vectors).
  - f_equal. rewrite app_nil_l.
    rewrite filter_all.
    + apply list_sort_incomparable.
      intros x y Hx _. apply list_elem_of_fmap in Hx as (item & -> & _). done.
    + apply Forall_fmap, Forall_true. intros item. apply below_min_nan.
  - apply Forall2_fmap_r, Forall_Forall2_diag.
    eapply Forall_impl; [exact Hlen |].
    intros item Hitem. split; [done |].
    by apply calc_similarity_zero_query.
  - apply Forall_fmap, Forall_true. intros item _. apply reaches_max_nan.
Qed.

Lemma zero_query_gives_nan_scores_witness :
  calc_similarities [0%R; 0%R]
    [("a.png", [1%R; 2%R]); ("b.png", [0%R; 5%R])]
    default_min_similarity default_max_similarity
    default_cosine_penalty_factor default_euclidean_penalty_factor
  = Ok [("a.png", NaN); ("b.png", NaN)].
Proof.
  apply (zero_query_gives_nan_scores [0%R; 0%R]
           [("a.png", [1%R; 2%R]); ("b.png", [0%R; 5%R])]).
  - repeat constructor.
  - repeat constructor.
Defined.

(** C3 fails on the code: an all-zero query against one published vector
    raises no error and returns that entry with a NaN score. *)
Lemma zero_query_is_not_rejected :
  (forall e, calc_similarities [0%R] [("a.png", [1%R])]
               default_min_similarity default_max_similarity
               default_cosine_penalty_factor default_euclidean_penalty_factor
             <> Raise e) /\
  calc_similarities [0%R] [("a.png", [1%R])]
    default_min_similarity default_max_similarity
    default_cosine_penalty_factor default_euclidean_penalty_factor
  = Ok [("a.png", NaN)].
Proof.
  assert (H : calc_similarities [0%R] [("a.png", [1%R])]
                default_min_similarity default_max_similarity
                default_cosine_penalty_factor default_euclidean_penalty_factor
              = Ok [("a.png", NaN)]).
  { unfold calc_similarities. cbn [scan].
    rewrite calc_similarity_zero_query by (repeat constructor).
    cbn [rbind]. by rewrite below_min_nan, reaches_max_nan. }
  split; [| exact H].
  intros e. rewrite H. discriminate.
Qed.

(** ** The sweep of the pending-request cache *)

Section Sweep.

Lemma lookup_foldl_delete {V} (m : gmap string V) (keys : list string) k :
  foldl (fun cache key => delete key cache) m keys !! k
    = if decide (k ∈ keys) then None else m !! k.
Proof.
  revert m. induction keys as [| key keys IH]; intros m; cbn [foldl].
  - destruct (decide (k ∈ [])) as [H | _]; [by apply elem_of_nil in H | done].
  - rewrite IH. destruct (decide (k = key)) as [-> | Hne].
    + rewrite lookup_delete_eq, (decide_True (P := key ∈ key :: keys)) by left.
      by destruct (decide (key ∈ keys)).
    + rewrite lookup_delete_ne by done.
      destruct (decide (k ∈ keys)) as [Hin | Hout].
      * by rewrite decide_True by (by right).
      * rewrite decide_False; [done |].
        by intros [? | ?]%elem_of_cons.
Qed.

Lemma elem_of_expired_keys now (cache : gmap string RequestCacheEntry) k :
  k ∈ expired_keys now cache <->
  exists e, cache !! k = Some e /\
            total_seconds_gt (now - created e) request_expire = true.
Proof.
  unfold expired_keys. rewrite list_elem_of_fmap. split.
  - intros ([k' e] & Hk & Hin). simpl in Hk. subst k'.
    apply list_elem_of_filter in Hin as [Hexp Hin].
    apply elem_of_map_to_list in Hin. by exists e.
  - intros (e & Hk & Hexp). exists (k, e). split; [done |].
    apply list_elem_of_filter. split; [done |]. by apply elem_of_map_to_list.
Qed.

(** The sweep keeps an entry exactly when its age is at most
    [request_expire]; nothing else about the entry is looked at. *)
Lemma cleanup_expired_requests_lookup now w k :
  requests_cache (cleanup_expired_requests now w) !! k
    = match requests_cache w !! k with
      | Some e =>
          if total_seconds_gt (now - created e) request_expire
          then None else Some e
      | None => None
      end.
Proof.
  unfold cleanup_expired_requests. cbn [requests_cache].
  rewrite lookup_foldl_delete.
  destruct (requests_cache w !! k) as [e |] eqn:Hk.
  - destruct (total_seconds_gt (now - created e) request_expire) eqn:Hexp.
    + rewrite decide_True; [done |]. apply elem_of_expired_keys. by exists e.
    + rewrite decide_False; [done |].
      intros (e' & He' & Hexp')%elem_of_expired_keys. congruence.
  - by case_decide.
Qed.

Lemma total_seconds_gt_spec td seconds :
  total_seconds_gt td seconds = true <-> (seconds * 1000000 < td)%Z.
Proof. unfold total_seconds_gt. apply Z.ltb_lt. Qed.

End Sweep.

(** C5. A sweep removes every entry whose age exceeds the TTL and keeps
    every entry whose age is at most the TTL, whatever its flags; the TTL is
    180 s, so an entry created at [t0] is still there after a sweep at
    [t0 + 179 s] and gone after a sweep at [t0 + 181 s].  Times are in
    microseconds. *)
Theorem sweep_removes_exactly_the_expired (now : datetime) (w : world)
    (request_id : string) (e : RequestCacheEntry) :
  requests_cache w !! request_id = Some e ->
  ((request_expire * 1000000 < now - created e)%Z ->
   requests_cache (cleanup_expired_requests now w) !! request_id = None) /\
  ((now - created e <= request_expire * 1000000)%Z ->
   requests_cache (cleanup_expired_requests now w) !! request_id = Some e) /\
  request_expire = 180%Z /\
  requests_cache (cleanup_expired_requests (created e + 179 * 1000000)%Z w)
    !! request_id = Some e /\
  requests_cache (cleanup_expired_requests (created e + 181 * 1000000)%Z w)
    !! request_id = None.
Proof.
  intros Hk.
  assert (Hgone : forall t, (request_expire * 1000000 < t - created e)%Z ->
            requests_cache (cleanup_expired_requests t w) !! request_id = None).
  { intros t Ht. rewrite cleanup_expired_requests_lookup, Hk.
    apply total_seconds_gt_spec in Ht. by rewrite Ht. }
  assert (Hkept : forall t, (t - created e <= request_expire * 1000000)%Z ->
            requests_cache (cleanup_expired_requests t w) !! request_id = Some e).
  { intros t Ht. rewrite cleanup_expired_requests_lookup, Hk.
    destruct (total_seconds_gt (t - created e) request_expire) eqn:Hexp; [| done].
    apply total_seconds_gt_spec in Hexp. lia. }
  repeat split.
  - apply Hgone.
  - apply Hkept.
  - apply Hkept. unfold request_expire. lia.
  - apply Hgone. unfold request_expire. lia.
Qed.

Lemma sweep_removes_exactly_the_expired_witness :
  requests_cache
    (cleanup_expired_requests 179000000%Z (example_world false false))
    !! "req-1" = Some (example_entry false false) /\
  requests_cache
    (cleanup_expired_requests 181000000%Z (example_world false false))
    !! "req-1" = None.
Proof.
  pose proof (sweep_removes_exactly_the_expired 0%Z (example_world false false)
                "req-1" (example_entry false false)) as H.
  destruct H as (_ & _ & _ & H179 & H181); [reflexivity |].
  split; [exact H179 | exact H181].
Defined.

(** C4, as the code has it.  The sweep does not look at the flags: an entry
    whose [saved] and [tweeted] flags are both true is removed by a sweep
    when its age exceeds the TTL and is kept by it otherwise. *)
Theorem sweep_keeps_flagged_entry_within_ttl (now : datetime) (w : world)
    (request_id : string) (e : RequestCacheEntry) :
  requests_cache w !! request_id = Some e ->
  saved e = true -> tweeted e = true ->
  requests_cache (cleanup_expired_requests now w) !! request_id
    = if total_seconds_gt (now - created e) request_expire then None else Some e.
Proof.
  intros Hk _ _. by rewrite cleanup_expired_requests_lookup, Hk.
Qed.

Lemma sweep_keeps_flagged_entry_within_ttl_witness :
  requests_cache (cleanup_expired_requests 1000000%Z (example_world true true))
    !! "req-1" = Some (example_entry true true).
Proof.
  apply (sweep_keeps_flagged_entry_within_ttl 1000000%Z (example_world true true)
           "req-1" (example_entry true true)); reflexivity.
Defined.

(** C4 fails on the code: an entry with both flags true and one second old
    is still in the cache after a sweep. *)
Lemma flagged_entry_survives_sweep :
  saved (example_entry true true) = true /\
  tweeted (example_entry true true) = true /\
  requests_cache (example_world true true) !! "req-1"
    = Some (example_entry true true) /\
  requests_cache (cleanup_expired_requests 1000000%Z (example_world true true))
    !! "req-1" = Some (example_entry true true).
Proof.
  split; [reflexivity | split; [reflexivity | split; [reflexivity |]]].
  by rewrite cleanup_expired_requests_lookup.
Qed.

(** ** File names *)

Section FileNames.

Lemma append_cons c s t : String c s +:+ t = String c (s +:+ t).
Proof. reflexivity. Qed.

Lemma append_nil_r s : s +:+ "" = s.
Proof. induction s as [| c s IH]; [done |]. by rewrite append_cons, IH. Qed.

Lemma length_append s t :
  String.length (s +:+ t) = String.length s + String.length t.
Proof.
  induction s as [| c s IH]; [done |].
  rewrite append_cons. simpl. by rewrite IH.
Qed.

Lemma append_assoc s t u : (s +:+ t) +:+ u = s +:+ (t +:+ u).
Proof. induction s as [| c s IH]; [done |]. by rewrite !append_cons, IH. Qed.

Lemma append_inj_l s s' t : s +:+ t = s' +:+ t -> s = s'.
Proof.
  revert s'. induction s as [| c s IH]; intros [| c' s'] H.
  - done.
  - apply (f_equal String.length) in H.
    rewrite !length_append in H. simpl in H. lia.
  - apply (f_equal String.length) in H.
    rewrite !length_append in H. simpl in H. lia.
  - rewrite !append_cons in H. injection H as -> H. f_equal. by apply IH.
Qed.

Lemma substring_0_length s t : String.substring 0 (String.length s) (s +:+ t) = s.
Proof.
  induction s as [| c s IH]; simpl.
  - by destruct t.
  - rewrite ?append_cons. by rewrite IH.
Qed.

Lemma substring_0_all s : String.substring 0 (String.length s) s = s.
Proof. induction s as [| c s IH]; simpl; [done | by rewrite IH]. Qed.

Lemma substring_length_app s t n :
  String.substring (String.length s) n (s +:+ t) = String.substring 0 n t.
Proof. induction s as [| c s IH]; simpl; [done |]. by rewrite ?append_cons. Qed.

Lemma substring_split s k :
  k <= String.length s ->
  String.substring 0 k s +:+ String.substring k (String.length s - k) s = s.
Proof.
  revert k. induction s as [| c s IH]; intros [| k] Hk; simpl in *; try lia.
  - done.
  - by rewrite substring_0_all.
  - rewrite ?append_cons. f_equal. apply IH. lia.
Qed.

Lemma length_substring s k n :
  k + n <= String.length s -> String.length (String.substring k n s) = n.
Proof.
  revert k n. induction s as [| c s IH]; intros [| k] [| n] Hk; simpl in *;
    try lia; try done.
  - f_equal. apply (IH 0). lia.
  - apply IH. lia.
  - apply IH. lia.
Qed.

Lemma rfind_dot_app s t :
  rfind_dot (s +:+ t)
    = match rfind_dot t with
      | Some i => Some (String.length s + i)
      | None => rfind_dot s
      end.
Proof.
  induction s as [| c s IH].
  - change ("" +:+ t) with t. by destruct (rfind_dot t).
  - rewrite ?append_cons. simpl. rewrite IH. by destruct (rfind_dot t).
Qed.

Lemma rfind_dot_lt s i : rfind_dot s = Some i -> i < String.length s.
Proof.
  revert i. induction s as [| c s IH]; intros i; simpl; [done |].
  destruct (rfind_dot s) as [j |].
  - intros [= <-]. specialize (IH j eq_refl). lia.
  - destruct (Ascii.eqb c dot_char); [| done]. intros [= <-]. lia.
Qed.

(** A name is its stem followed by its suffix. *)
Lemma stem_suffix name : stem name +:+ suffix name = name.
Proof.
  unfold stem. unfold suffix at 2.
  destruct (rfind_dot name) as [[| i] |] eqn:Hdot.
  - unfold suffix. rewrite Hdot. simpl String.length.
    rewrite Nat.sub_0_r, substring_0_all. apply append_nil_r.
  - pose proof (rfind_dot_lt _ _ Hdot) as Hlt.
    unfold suffix. rewrite Hdot.
    destruct (Nat.ltb (S i) (String.length name - 1)).
    + rewrite length_substring by lia.
      replace (String.length name - (String.length name - S i)) with (S i) by lia.
      apply substring_split. lia.
    + simpl String.length. rewrite Nat.sub_0_r, substring_0_all.
      apply append_nil_r.
  - unfold suffix. rewrite Hdot. simpl String.length.
    rewrite Nat.sub_0_r, substring_0_all. apply append_nil_r.
Qed.

(** What [np.save] appends is the suffix of the file it writes, and the
    image's name is its stem. *)
Lemma suffix_npy p : p <> "" -> suffix (p +:+ ".npy") = ".npy".
Proof.
  intros Hp. unfold suffix.
  rewrite rfind_dot_app. simpl rfind_dot.
  destruct p as [| c p]; [done |]. simpl String.length.
  rewrite Nat.add_0_r, append_cons. simpl String.length.
  rewrite length_append. simpl String.length.
  destruct (Nat.ltb_spec (S (String.length p)) (S (String.length p + 4) - 1)); [| lia].
  replace (S (String.length p + 4) - S (String.length p)) with 4 by lia.
  rewrite <- append_cons.
  change (S (String.length p)) with (String.length (String c p)).
  by rewrite substring_length_app.
Qed.

Lemma stem_npy p : p <> "" -> stem (p +:+ ".npy") = p.
Proof.
  intros Hp. unfold stem. rewrite suffix_npy by done.
  rewrite length_append. simpl String.length.
  replace (String.length p + 4 - 4) with (String.length p) by lia.
  apply substring_0_length.
Qed.

Lemma endswith_unfold s t :
  endswith s t
    = String.eqb s t ||
      match s with
      | EmptyString => false
      | String _ s' => endswith s' t
      end.
Proof. by destruct s. Qed.

Lemma endswith_app s t : endswith (s +:+ t) t = true.
Proof.
  induction s as [| c s IH].
  - change ("" +:+ t) with t. by rewrite endswith_unfold, String.eqb_refl.
  - rewrite append_cons, endswith_unfold, IH. apply orb_true_r.
Qed.

Lemma endswith_inv s t : endswith s t = true -> exists a, s = a +:+ t.
Proof.
  induction s as [| c s IH]; rewrite endswith_unfold.
  - rewrite orb_false_r. intros <-%String.eqb_eq. by exists "".
  - intros [<-%String.eqb_eq | H]%orb_true_iff; [by exists "" |].
    destruct (IH H) as [a ->]. by exists (String c a).
Qed.

Lemma not_an_image_suffix s :
  bool_decide (s ∈ normalize_extension <$> image_extensions) = false ->
  s ∉ normalize_extension <$> image_extensions.
Proof. apply bool_decide_eq_false. Qed.

(** The name of an image file does not end in [.npy], so [np.save] appends
    it. *)
Lemma npy_name_image p :
  suffix p ∈ normalize_extension <$> image_extensions ->
  p <> "" /\ npy_name p = p +:+ ".npy".
Proof.
  intros Hs. split.
  - intros ->. by apply (not_an_image_suffix "") in Hs.
  - unfold npy_name. destruct (endswith p ".npy") eqn:He; [| done].
    exfalso. apply endswith_inv in He as [a ->].
    destruct a as [| c a].
    + by apply (not_an_image_suffix "") in Hs.
    + rewrite suffix_npy in Hs by done.
      by apply (not_an_image_suffix ".npy") in Hs.
Qed.

End FileNames.

(** ** Directories and [list_files] *)

Section Directories.

Lemma elem_of_iterdir {A} (d : gmap string A) name :
  name ∈ iterdir d <-> is_Some (d !! name).
Proof.
  unfold iterdir. rewrite list_elem_of_fmap. split.
  - intros ([k v] & Hk & Hin). simpl in Hk. subst k.
    apply elem_of_map_to_list in Hin. by exists v.
  - intros [v Hv]. exists (name, v). split; [done |].
    by apply elem_of_map_to_list.
Qed.

Lemma NoDup_iterdir {A} (d : gmap string A) : NoDup (iterdir d).
Proof. apply NoDup_fst_map_to_list. Qed.

Lemma elem_of_list_files names exts f :
  f ∈ list_files names exts <->
  suffix f ∈ normalize_extension <$> exts /\ f ∈ names.
Proof.
  unfold list_files.
  apply (list_elem_of_filter
           (fun file => suffix file ∈ normalize_extension <$> exts)).
Qed.

Lemma NoDup_list_files names exts : NoDup names -> NoDup (list_files names exts).
Proof. unfold list_files. apply NoDup_filter. Qed.

Lemma stem_index_snoc fs f :
  stem_index (fs ++ [f]) = <[stem f := f]> (stem_index fs).
Proof. unfold stem_index. by rewrite foldl_app. Qed.

Lemma stem_index_lookup_Some fs p f :
  stem_index fs !! p = Some f -> f ∈ fs /\ stem f = p.
Proof.
  induction fs as [| g fs IH] using rev_ind.
  - unfold stem_index. simpl. by rewrite lookup_empty.
  - rewrite stem_index_snoc. destruct (decide (stem g = p)) as [Hg | Hg].
    + rewrite Hg, lookup_insert_eq. intros [= <-].
      split; [| done]. apply elem_of_app. right. by left.
    + rewrite lookup_insert_ne by done. intros H.
      destruct (IH H) as [Hin Hst]. split; [| done].
      apply elem_of_app. by left.
Qed.

Lemma stem_index_is_Some fs f : f ∈ fs -> is_Some (stem_index fs !! stem f).
Proof.
  induction fs as [| g fs IH] using rev_ind; [by intros ?%elem_of_nil |].
  rewrite stem_index_snoc.
  destruct (decide (stem g = stem f)) as [Hg | Hg].
  - rewrite Hg, lookup_insert_eq. by eexists.
  - rewrite lookup_insert_ne by done.
    intros [Hin | Hin]%elem_of_app; [by apply IH |].
    apply list_elem_of_singleton in Hin. by subst.
Qed.

Lemma list_files_npy names f :
  f ∈ list_files names ["npy"] -> f = stem f +:+ ".npy" /\ f ∈ names.
Proof.
  intros [Hs Hin]%elem_of_list_files. split; [| done].
  apply list_elem_of_singleton in Hs.
  change (normalize_extension "npy") with ".npy" in Hs.
  rewrite <- Hs. symmetry. apply stem_suffix.
Qed.

Lemma cached_files_name e p f :
  stem_index
    match cache_dir e with
    | Some d => list_files (iterdir d) ["npy"]
    | None => []
    end !! p = Some f ->
  f = p +:+ ".npy".
Proof.
  intros [Hin <-]%stem_index_lookup_Some.
  destruct (cache_dir e) as [d |]; [| by apply elem_of_nil in Hin].
  by apply list_files_npy in Hin as [? _].
Qed.

Lemma cached_files_hit e p v :
  p <> "" ->
  cache_files e !! (p +:+ ".npy") = Some v ->
  stem_index
    match cache_dir e with
    | Some d => list_files (iterdir d) ["npy"]
    | None => []
    end !! p = Some (p +:+ ".npy").
Proof.
  intros Hp Hv. unfold cache_files in Hv.
  destruct (cache_dir e) as [d |] eqn:Hd; simpl in Hv;
    [| by rewrite lookup_empty in Hv].
  assert (Hin : p +:+ ".npy" ∈ list_files (iterdir d) ["npy"]).
  { apply elem_of_list_files. split.
    - rewrite suffix_npy by done. by left.
    - apply elem_of_iterdir. by eexists. }
  apply stem_index_is_Some in Hin as [f Hf].
  rewrite stem_npy in Hf by done.
  pose proof Hf as Hname.
  apply stem_index_lookup_Some in Hname as [Hfin _].
  apply list_files_npy in Hfin as [Hfname _].
  apply stem_index_lookup_Some in Hf as Hst.
  destruct Hst as [_ Hst]. rewrite Hst in Hfname. by rewrite Hf, Hfname.
Qed.

End Directories.

(** ** [load_features] *)

Section LoadFeatures.

Variable Image_open : bytes -> result Image.
Variable extract_func : Image -> ndarray.

Local Abbreviation load_loop' := (load_loop Image_open extract_func).
Local Abbreviation load_features' := (load_features Image_open extract_func).
Local Abbreviation is_image_file :=
  (fun p : string => suffix p ∈ normalize_extension <$> image_extensions).
Local Abbreviation filled acc fs vs :=
  (foldl (fun d (pv : string * ndarray) => dict_set d pv.1 pv.2) acc (zip fs vs)).

Lemma cache_files_Some imgs c log : cache_files (mkEnv imgs (Some c) log) = c.
Proof. reflexivity. Qed.

(** A run with both flags set leaves the images directory alone, only adds
    to the cache directory, and ends with the vector of every image file
    stored under the image's name followed by [.npy]; those vectors, in the
    order of the files, are what it returns. *)
Lemma load_loop_populates fs cached acc e feats e1 :
  NoDup fs ->
  Forall is_image_file fs ->
  (forall p f, cached !! p = Some f -> f = p +:+ ".npy") ->
  (forall p, p ∈ fs -> cached !! p = None ->
             cache_files e !! (p +:+ ".npy") = None) ->
  load_loop' fs cached true true acc e = (Ok feats, e1) ->
  images_dir e1 = images_dir e /\
  cache_files e ⊆ cache_files e1 /\
  exists vs,
    Forall2 (fun p v => cache_files e1 !! (p +:+ ".npy") = Some v) fs vs /\
    feats = filled acc fs vs.
Proof.
  intros Hnd Himg Hname. revert acc e.
  induction fs as [| p fs IH]; intros acc e Hfresh Hrun.
  - cbn [load_loop] in Hrun. injection Hrun as <- <-.
    split; [done |]. split; [done |]. exists []. by split; [constructor |].
  - apply NoDup_cons in Hnd as [Hp Hnd].
    apply Forall_cons in Himg as [Hpimg Himg].
    destruct (npy_name_image p Hpimg) as [Hpne Hpnpy].
    cbn [load_loop] in Hrun.
    destruct (cached !! p) as [f |] eqn:Hc.
    + pose proof (Hname _ _ Hc) as ->.
      destruct (cache_files e !! (p +:+ ".npy")) as [v |] eqn:Hv; [| done].
      destruct (IH Hnd Himg _ _ (fun q Hq => Hfresh q (list_elem_of_further _ _ _ Hq)) Hrun)
        as (Himgs & Hsub & vs & Hvs & ->).
      split; [done |]. split; [done |]. exists (v :: vs). split; [| done].
      constructor; [| done]. by apply (lookup_weaken _ _ _ _ Hv).
    + destruct (images_dir e !! p) as [content |]; [| done].
      destruct (Image_open content) as [img |]; [| done].
      set (e' := mkEnv (images_dir e)
                   (Some (np_save p (extract_func img) (cache_files e)))
                   (extract_log e ++ [img])) in Hrun.
      assert (Hnone : cache_files e !! (p +:+ ".npy") = None).
      { apply Hfresh; [by left | done]. }
      assert (Hfresh' : forall q, q ∈ fs -> cached !! q = None ->
                cache_files e' !! (q +:+ ".npy") = None).
      { intros q Hq Hcq. unfold e'. rewrite cache_files_Some. unfold np_save.
        rewrite Hpnpy, lookup_insert_ne.
        - apply Hfresh; [by right | done].
        - intros Heq. apply append_inj_l in Heq. by subst. }
      destruct (IH Hnd Himg _ _ Hfresh' Hrun) as (Himgs & Hsub & vs & Hvs & ->).
      split; [done |].
      assert (Hsub0 : cache_files e ⊆ cache_files e').
      { unfold e'. rewrite cache_files_Some. unfold np_save.
        rewrite Hpnpy. by apply insert_subseteq. }
      split; [by etrans |].
      exists (extract_func img :: vs). split; [| done].
      constructor; [| done].
      apply (lookup_weaken (cache_files e')); [| done].
      unfold e'. rewrite cache_files_Some. unfold np_save.
      by rewrite Hpnpy, lookup_insert_eq.
Qed.

(** When every file has its vector in the cache and the index knows it, the
    loop reads them all: nothing is written and the extractor is not
    called. *)
Lemma load_loop_all_cached fs cached save_cache acc e vs :
  Forall2 (fun p v => exists f, cached !! p = Some f /\
                                cache_files e !! f = Some v) fs vs ->
  load_loop' fs cached save_cache true acc e = (Ok (filled acc fs vs), e).
Proof.
  intros Hall. revert acc.
  induction Hall as [| p v fs vs (f & Hf & Hv) _ IH]; intros acc; [done |].
  cbn [load_loop]. rewrite Hf, Hv. apply IH.
Qed.

End LoadFeatures.

(** C7. With both cache flags set (the defaults), a run of [load_features]
    that succeeded leaves the images directory unchanged, and a second run
    right after it returns the same mapping (same entries, same order),
    changes nothing on disk and does not call the extractor: the world after
    it, trace of extractor calls included, is the world before it. *)
Theorem load_features_idempotent
    (Image_open : bytes -> result Image) (extract_func : Image -> ndarray)
    (e e1 : env) (features : list (Path * ndarray)) :
  load_features Image_open extract_func true true e = (Ok features, e1) ->
  images_dir e1 = images_dir e /\
  load_features Image_open extract_func true true e1 = (Ok features, e1) /\
  extract_log (load_features Image_open extract_func true true e1).2
    = extract_log e1.
Proof.
  intros Hrun. unfold load_features in Hrun.
  apply load_loop_populates in Hrun as (Himgs & _ & vs & Hvs & ->).
  - split; [done |].
    assert (Hagain : load_features Image_open extract_func true true e1
                     = (Ok (foldl (fun d (pv : string * ndarray) =>
                                     dict_set d pv.1 pv.2) [] 
                              (zip (list_files (iterdir (images_dir e)) image_extensions) vs)),
                        e1)).
    { unfold load_features. rewrite Himgs.
      apply load_loop_all_cached.
      assert (Himg : Forall (fun p => p <> "")
                       (list_files (iterdir (images_dir e)) image_extensions)).
      { apply Forall_forall. intros p [Hs _]%elem_of_list_files.
        by apply npy_name_image in Hs as [? _]. }
      revert Himg. induction Hvs as [| p v fs vs' Hv _ IH]; intros Himg;
        [constructor |].
      apply Forall_cons in Himg as [Hp Himg].
      constructor; [| by apply IH].
      exists (p +:+ ".npy"). split; [| done].
      by apply cached_files_hit with v. }
    split; [done |]. by rewrite Hagain.
  - apply NoDup_list_files, NoDup_iterdir.
  - apply Forall_forall. by intros p [Hs _]%elem_of_list_files.
  - apply cached_files_name.
  - intros p [Hs _]%elem_of_list_files Hc.
    apply npy_name_image in Hs as [Hp _].
    destruct (cache_files e !! (p +:+ ".npy")) as [v |] eqn:Hv; [| done].
    apply (cached_files_hit e p v Hp) in Hv. congruence.
Qed.

Lemma load_features_idempotent_witness :
  images_dir example_env_loaded = images_dir example_env /\
  load_features example_open example_extract true true example_env_loaded
    = (Ok example_features, example_env_loaded) /\
  extract_log
    (load_features example_open example_extract true true example_env_loaded).2
    = extract_log example_env_loaded.
Proof.
  apply (load_features_idempotent example_open example_extract example_env).
  vm_compute. reflexivity.
Defined.

(** ** The handlers of [server.py] *)

Section Handlers.

Variable Image_open : bytes -> result Image.
Variable extract_features : Image -> ndarray.
Variable load_image_from_url : string -> result Image.
Variable bytes_to_hash_hex : bytes -> string.
Variable jpeg_bytes : Image -> bytes.

Local Abbreviation find_image' :=
  (find_image extract_features load_image_from_url bytes_to_hash_hex).
Local Abbreviation save_image' := (save_image jpeg_bytes).
Local Abbreviation update_images' := (update_images Image_open extract_features).
Local Abbreviation handle' :=
  (handle Image_open extract_features load_image_from_url bytes_to_hash_hex
     jpeg_bytes).
Local Abbreviation run' :=
  (run Image_open extract_features load_image_from_url bytes_to_hash_hex
     jpeg_bytes).

(** *** [save_image] *)

Lemma features_save_path_npy h :
  npy_name (with_suffix h ".jpeg.npy") = with_suffix h ".jpeg.npy".
Proof.
  unfold npy_name, with_suffix.
  change ".jpeg.npy" with (".jpeg" +:+ ".npy").
  by rewrite <- append_assoc, endswith_app.
Qed.

Lemma save_image_not_found base_url request_id w :
  requests_cache w !! request_id = None ->
  save_image' base_url request_id w = (HTTPException 404, w).
Proof. intros H. unfold save_image. by rewrite H. Qed.

Lemma save_image_conflict base_url request_id w cache :
  requests_cache w !! request_id = Some cache ->
  is_Some (images_dir (outside w) !! with_suffix (hash cache) ".jpeg") ->
  is_Some (cache_files (outside w) !! with_suffix (hash cache) ".jpeg.npy") ->
  (save_image' base_url request_id w).1 = HTTPException 409.
Proof.
  intros H Himg Hnpy. unfold save_image. rewrite H.
  by rewrite !bool_decide_eq_true_2.
Qed.

Lemma save_image_saves base_url request_id w cache :
  requests_cache w !! request_id = Some cache ->
  ~ (is_Some (images_dir (outside w) !! with_suffix (hash cache) ".jpeg") /\
     is_Some (cache_files (outside w) !! with_suffix (hash cache) ".jpeg.npy")) ->
  save_image' base_url request_id w
    = (SaveResponse (base_url +:+ "image/" +:+ with_suffix (hash cache) ".jpeg"),
       mkWorld
         (mkEnv
            (<[with_suffix (hash cache) ".jpeg" := jpeg_bytes (image cache)]>
               (images_dir (outside w)))
            (Some (<[with_suffix (hash cache) ".jpeg.npy" := features cache]>
                     (cache_files (outside w))))
            (extract_log (outside w)))
         (dict_set (images w) (with_suffix (hash cache) ".jpeg") (features cache))
         (if tweeted cache
          then delete request_id (requests_cache w)
          else <[request_id :=
                   mkEntry (created cache) (image cache) (hash cache)
                     (features cache) true (tweeted cache) (tweet_id cache)]>
                 (requests_cache w))).
Proof.
  intros H Hnot. unfold save_image. rewrite H.
  destruct (bool_decide _ && bool_decide _) eqn:Hboth.
  - apply andb_true_iff in Hboth as [?%bool_decide_eq_true ?%bool_decide_eq_true].
    by destruct Hnot.
  - unfold np_save. rewrite features_save_path_npy. cbn [saved tweeted andb].
    destruct (tweeted cache); [| done].
    by rewrite delete_insert_eq.
Qed.

(** *** [update_images] *)

Lemma update_images_same_count w :
  length (images w)
    = length (list_files (iterdir (images_dir (outside w))) image_extensions) ->
  update_images' w = (Ok tt, w).
Proof. intros H. unfold update_images. by rewrite H, Nat.eqb_refl. Qed.

Lemma update_images_reloads w loaded outside' :
  length (images w)
    <> length (list_files (iterdir (images_dir (outside w))) image_extensions) ->
  load_features Image_open extract_features true true (outside w)
    = (Ok loaded, outside') ->
  update_images' w = (Ok tt, mkWorld outside' loaded (requests_cache w)).
Proof.
  intros Hne Hload. unfold update_images.
  apply Nat.eqb_neq in Hne. by rewrite Hne, Hload.
Qed.

(** *** An identifier that is not pending stays so *)

Lemma find_image_keeps_absent base_url url max_results max_similarity uuid1 now
    w request_id :
  requests_cache w !! request_id = None -> uuid1 <> request_id ->
  requests_cache
    (find_image' base_url url max_results max_similarity uuid1 now w).2
    !! request_id = None.
Proof.
  intros Habs Hne. unfold find_image.
  destruct (extract_name_extension url base_url).
  { by destruct (images_dir (outside w) !! _). }
  destruct (load_image_from_url url) as [img |]; [| done].
  destruct (calc_similarities _ _ _ _ _ _); [| done].
  cbn [snd requests_cache]. by rewrite lookup_insert_ne.
Qed.

Lemma save_image_keeps_absent base_url rid w request_id :
  requests_cache w !! request_id = None ->
  requests_cache (save_image' base_url rid w).2 !! request_id = None.
Proof.
  intros Habs.
  destruct (requests_cache w !! rid) as [cache |] eqn:Hrid.
  - assert (rid <> request_id) by congruence.
    destruct (decide (is_Some (images_dir (outside w) !! with_suffix (hash cache) ".jpeg") /\
                      is_Some (cache_files (outside w) !! with_suffix (hash cache) ".jpeg.npy")))
      as [[Hi Hn] | Hnot].
    + unfold save_image. rewrite Hrid. by rewrite !bool_decide_eq_true_2.
    + rewrite (save_image_saves _ _ _ _ Hrid Hnot). cbn [snd requests_cache].
      destruct (tweeted cache).
      * by rewrite lookup_delete_ne.
      * by rewrite lookup_insert_ne.
  - by rewrite save_image_not_found.
Qed.

Lemma update_images_keeps_cache w :
  requests_cache (update_images' w).2 = requests_cache w.
Proof.
  unfold update_images. destruct (Nat.eqb _ _); [done |].
  by destruct (load_features _ _ _ _ _) as [[loaded | x] outside'].
Qed.

Lemma handle_keeps_absent w ev request_id :
  requests_cache w !! request_id = None ->
  request_id ∉ uuids_of [ev] ->
  requests_cache (handle' w ev) !! request_id = None.
Proof.
  intros Habs Hfresh.
  destruct ev as [b u k m uuid1 now | b rid | | now]; cbn [handle].
  - apply find_image_keeps_absent; [done |].
    intros ->. apply Hfresh. by left.
  - by apply save_image_keeps_absent.
  - by rewrite update_images_keeps_cache.
  - by rewrite cleanup_expired_requests_lookup, Habs.
Qed.

Lemma uuids_of_cons ev evs : uuids_of (ev :: evs) = uuids_of [ev] ++ uuids_of evs.
Proof. unfold uuids_of. simpl. by destruct ev. Qed.

Lemma run_keeps_absent w evs request_id :
  requests_cache w !! request_id = None ->
  request_id ∉ uuids_of evs ->
  requests_cache (run' w evs) !! request_id = None.
Proof.
  revert w. induction evs as [| ev evs IH]; intros w Habs Hfresh; [done |].
  rewrite uuids_of_cons in Hfresh. apply not_elem_of_app in Hfresh as [Hev Hevs].
  unfold run. cbn [foldl]. apply IH; [| done].
  by apply handle_keeps_absent.
Qed.

(** *** [find_image] *)

Lemma find_image_self_url base_url url max_results max_similarity uuid1 now w
    file_name :
  extract_name_extension url base_url = Some file_name ->
  is_Some (images_dir (outside w) !! file_name) ->
  find_image' base_url url max_results max_similarity uuid1 now w
    = (FindResponse uuid1 [((base_url +:+ "image/" +:+ file_name)%string, Fin 1)], w).
Proof.
  intros Hname [content Hfile]. unfold find_image. by rewrite Hname, Hfile.
Qed.

Lemma find_image_ranked base_url url max_results max_similarity uuid1 now w
    img ranked :
  extract_name_extension url base_url = None ->
  load_image_from_url url = Ok img ->
  calc_similarities (extract_features img) (images w)
    default_min_similarity max_similarity
    default_cosine_penalty_factor default_euclidean_penalty_factor = Ok ranked ->
  (find_image' base_url url max_results max_similarity uuid1 now w).1
    = JSONResponse_find uuid1 (result_url base_url <$> slice_to ranked max_results).
Proof.
  intros Hname Himg Hranked. unfold find_image.
  by rewrite Hname, Himg, Hranked.
Qed.

End Handlers.

Section Claims.

Variable Image_open : bytes -> result Image.
Variable extract_features : Image -> ndarray.
Variable load_image_from_url : string -> result Image.
Variable bytes_to_hash_hex : bytes -> string.
Variable jpeg_bytes : Image -> bytes.

(** C6. For a pending request, [save_image] answers 409 Conflict exactly
    when the image file and the fingerprint file both exist already under
    the names derived from the content hash.  Otherwise it answers with the
    stored location and writes both files, so that committing the same
    identity again, through any pending request with that hash, is a
    Conflict.  The request itself is such a request unless it was created as
    an exact match ([tweeted] set): then the first commit has dropped it and
    a second commit of the same [request_id] is not found. *)
Theorem save_image_conflict_iff_both_files_exist
    (base_url request_id : string) (w : world) (cache : RequestCacheEntry) :
  requests_cache w !! request_id = Some cache ->
  let save_path := with_suffix (hash cache) ".jpeg" in
  let features_save_path := with_suffix (hash cache) ".jpeg.npy" in
  let both_exist :=
    is_Some (images_dir (outside w) !! save_path) /\
    is_Some (cache_files (outside w) !! features_save_path) in
  let w' := (save_image jpeg_bytes base_url request_id w).2 in
  ((save_image jpeg_bytes base_url request_id w).1 = HTTPException 409
   <-> both_exist) /\
  (~ both_exist ->
   (save_image jpeg_bytes base_url request_id w).1
     = SaveResponse (base_url +:+ "image/" +:+ save_path) /\
   (forall base_url' request_id' cache',
      requests_cache w' !! request_id' = Some cache' ->
      hash cache' = hash cache ->
      (save_image jpeg_bytes base_url' request_id' w').1 = HTTPException 409) /\
   (tweeted cache = false ->
    (save_image jpeg_bytes base_url request_id w').1 = HTTPException 409) /\
   (tweeted cache = true ->
    (save_image jpeg_bytes base_url request_id w').1 = HTTPException 404)).
Proof.
  intros Hreq save_path features_save_path both_exist w'.
  assert (Hsaved : ~ both_exist ->
            (save_image jpeg_bytes base_url request_id w).1
              = SaveResponse (base_url +:+ "image/" +:+ save_path)).
  { intros Hnot. by rewrite (save_image_saves _ _ _ _ _ Hreq Hnot). }
  split.
  - split.
    + intros H409. destruct (decide both_exist) as [? | Hnot]; [done |].
      rewrite Hsaved in H409 by done. discriminate.
    + intros [Himg Hnpy]. by apply save_image_conflict with cache.
  - intros Hnot. split; [by apply Hsaved |].
    assert (Hagain : forall base_url' request_id' cache',
              requests_cache w' !! request_id' = Some cache' ->
              hash cache' = hash cache ->
              (save_image jpeg_bytes base_url' request_id' w').1 = HTTPException 409).
    { intros base_url' request_id' cache' Hreq' Hhash.
      apply save_image_conflict with cache'; [done | |]; rewrite Hhash;
        unfold w'; rewrite (save_image_saves _ _ _ _ _ Hreq Hnot);
        cbn [snd outside images_dir].
      - rewrite lookup_insert_eq. by eexists.
      - rewrite cache_files_Some, lookup_insert_eq. by eexists. }
    split; [exact Hagain |]. split.
    + intros Htw.
      apply Hagain with
        (mkEntry (created cache) (image cache) (hash cache) (features cache)
           true (tweeted cache) (tweet_id cache)); [| done].
      unfold w'. rewrite (save_image_saves _ _ _ _ _ Hreq Hnot).
      cbn [snd requests_cache]. rewrite Htw at 1. by rewrite lookup_insert_eq.
    + intros Htw.
      rewrite save_image_not_found; [done |].
      unfold w'. rewrite (save_image_saves _ _ _ _ _ Hreq Hnot).
      cbn [snd requests_cache]. rewrite Htw. apply lookup_delete_eq.
Qed.

(** C8. One step of image reconciliation leaves the world as it is whenever
    the index has as many entries as the images directory has image files,
    also when the files are not the indexed ones; when the counts differ and
    [load_features] succeeds, the index becomes what [load_features]
    returned, so every returned entry is published. *)
Theorem update_images_compares_counts_only :
  (forall w,
     length (images w)
       = length (list_files (iterdir (images_dir (outside w))) image_extensions) ->
     update_images Image_open extract_features w = (Ok tt, w)) /\
  (forall w loaded outside',
     length (images w)
       <> length (list_files (iterdir (images_dir (outside w))) image_extensions) ->
     load_features Image_open extract_features true true (outside w)
       = (Ok loaded, outside') ->
     update_images Image_open extract_features w
       = (Ok tt, mkWorld outside' loaded (requests_cache w)) /\
     forall entry, entry ∈ loaded ->
       entry ∈ images (update_images Image_open extract_features w).2) /\
  ((images swapped_world).*1
     <> list_files (iterdir (images_dir (outside swapped_world))) image_extensions /\
   update_images Image_open extract_features swapped_world = (Ok tt, swapped_world)).
Proof.
  split; [| split].
  - intros w Hcount. by apply update_images_same_count.
  - intros w loaded outside' Hcount Hload.
    rewrite (update_images_reloads _ _ _ _ _ Hcount Hload). by split.
  - split; [by vm_compute |]. by apply update_images_same_count.
Qed.

(** C10. A search whose URL matches the server's own image pattern and names
    a stored file answers with that one URL at similarity 1.0 and leaves the
    world as it was: nothing is stored under the returned [request_id].  The
    identifier being fresh and never handed out again, it is pending at no
    later time, whatever the server handles in between, and a commit with it
    is answered 404 Not Found. *)
Theorem self_url_search_stores_nothing
    (base_url url : string) (max_results : Z) (max_similarity : option R)
    (uuid1 : string) (now : datetime) (w : world) (file_name : string) :
  extract_name_extension url base_url = Some file_name ->
  is_Some (images_dir (outside w) !! file_name) ->
  requests_cache w !! uuid1 = None ->
  find_image extract_features load_image_from_url bytes_to_hash_hex
    base_url url max_results max_similarity uuid1 now w
    = (FindResponse uuid1
         [((base_url +:+ "image/" +:+ file_name)%string, Fin 1)], w) /\
  forall (later : list event) (base_url' : string),
    uuid1 ∉ uuids_of later ->
    (save_image jpeg_bytes base_url' uuid1
       (run Image_open extract_features load_image_from_url bytes_to_hash_hex
          jpeg_bytes w later)).1 = HTTPException 404.
Proof.
  intros Hname Hfile Hfresh. split.
  - by apply find_image_self_url.
  - intros later base_url' Hlater.
    rewrite save_image_not_found; [done |].
    by apply run_keeps_absent.
Qed.

End Claims.

Lemma save_image_conflict_iff_both_files_exist_witness :
  (save_image example_jpeg "http://h/" "req-1" (example_world false false)).1
    = SaveResponse "http://h/image/00ff.jpeg" /\
  (save_image example_jpeg "http://h/" "req-1"
     (save_image example_jpeg "http://h/" "req-1" (example_world false false)).2).1
    = HTTPException 409.
Proof.
  destruct (save_image_conflict_iff_both_files_exist example_jpeg "http://h/"
              "req-1" (example_world false false) (example_entry false false)
              eq_refl) as [_ H].
  destruct H as (Hfirst & _ & Hsecond & _).
  - intros [[content Hcontent] _]. vm_compute in Hcontent. discriminate.
  - split; [exact Hfirst | by apply Hsecond].
Defined.

Lemma update_images_compares_counts_only_witness :
  update_images example_open example_extract swapped_world
    = (Ok tt, swapped_world) /\
  update_images example_open example_extract unpublished_world
    = (Ok tt, published_world).
Proof.
  destruct (update_images_compares_counts_only example_open example_extract)
    as (Hsame & Hdiffer & _).
  split.
  - apply Hsame. reflexivity.
  - apply (Hdiffer unpublished_world (images published_world)
             (outside published_world)).
    + vm_compute. discriminate.
    + vm_compute. reflexivity.
Defined.

Lemma self_url_search_stores_nothing_witness :
  find_image example_extract example_download example_hash
    "http://h/" "http://h/image/a.png" 5 None "uuid-1" 3%Z serving_world
    = (FindResponse "uuid-1" [("http://h/image/a.png", Fin 1)], serving_world) /\
  (save_image example_jpeg "http://h/" "uuid-1"
     (run example_open example_extract example_download example_hash
        example_jpeg serving_world example_later)).1 = HTTPException 404.
Proof.
  destruct (self_url_search_stores_nothing example_open example_extract
              example_download example_hash example_jpeg
              "http://h/" "http://h/image/a.png" 5 None "uuid-1" 3%Z
              serving_world "a.png") as [Hfind Hlater].
  - reflexivity.
  - eexists. reflexivity.
  - reflexivity.
  - split; [exact Hfind |]. apply Hlater.
    change (uuids_of example_later) with ["uuid-2"].
    rewrite list_elem_of_singleton. discriminate.
Defined.

Section Ranking.

Variable extract_features : Image -> ndarray.
Variable load_image_from_url : string -> result Image.
Variable bytes_to_hash_hex : bytes -> string.

Lemma calc_similarities_without_exit reference_vector vectors
    min_similarity max_similarity cpf epf scores :
  truthy max_similarity = false ->
  Forall2 (scored_by reference_vector cpf epf) vectors scores ->
  calc_similarities reference_vector vectors min_similarity max_similarity cpf epf
    = Ok (list_sort true
            (filter (fun r => below_min min_similarity r.2 = false) scores)).
Proof.
  intros Hmx Hsc. unfold calc_similarities.
  rewrite scan_to_the_end with (rs := scores); [done | done |].
  apply Forall_true. intros r _. by apply reaches_max_falsy.
Qed.

Lemma filter_default_min (scores : list (Path * np_float)) :
  filter (fun r => below_min default_min_similarity r.2 = false) scores
    = filter (fun r => np_lt r.2 (Fin 0.2) = false) scores.
Proof.
  apply list_filter_iff. intros r. unfold default_min_similarity.
  rewrite below_min_Some; [done | lra].
Qed.

(** C9.  [None] and [0] are falsy thresholds.  When no score is NaN, a scan
    whose [max_similarity] is falsy never exits early: it returns, in
    descending score order, exactly the entries that the minimum does not
    skip, and with a falsy [min_similarity] it skips none.  [find_image]
    hands its [max_similarity] argument, [None] when the parameter is
    absent, to [calc_similarities] in place of the default 0.9, and answers
    with the first [max_results] of that ranking; the entries ranked are
    those whose score is [>= 0.2]. *)
Theorem search_without_max_similarity_ranks_everything :
  truthy None = false /\
  truthy (Some 0%R) = false /\
  (forall reference_vector vectors min_similarity max_similarity cpf epf scores,
     truthy max_similarity = false ->
     Forall2 (scored_by reference_vector cpf epf) vectors scores ->
     Forall (fun r => not_nan r.2) scores ->
     let kept := filter (fun r => below_min min_similarity r.2 = false) scores in
     calc_similarities reference_vector vectors min_similarity max_similarity
       cpf epf = Ok (list_sort true kept) /\
     list_sort true kept ≡ₚ kept /\
     descending (list_sort true kept) /\
     (truthy min_similarity = false -> kept = scores)) /\
  (forall base_url url max_results uuid1 now w img scores,
     extract_name_extension url base_url = None ->
     load_image_from_url url = Ok img ->
     Forall2 (scored_by (extract_features img) default_cosine_penalty_factor
                default_euclidean_penalty_factor) (images w) scores ->
     Forall (fun r => not_nan r.2) scores ->
     let kept := filter (fun r => np_ge r.2 (Fin 0.2) = true) scores in
     (find_image extract_features load_image_from_url bytes_to_hash_hex
        base_url url max_results None uuid1 now w).1
       = JSONResponse_find uuid1
           (result_url base_url <$> slice_to (list_sort true kept) max_results) /\
     descending (list_sort true kept) /\
     ((0 <= max_results)%Z ->
      slice_to (list_sort true kept) max_results
        = take (Z.to_nat max_results) (list_sort true kept))).
Proof.
  split; [done |]. split; [apply truthy_zero |]. split.
  - intros reference_vector vectors min_similarity max_similarity cpf epf scores
      Hmx Hsc Hnn kept.
    split; [by apply calc_similarities_without_exit |].
    split; [apply list_sort_perm |]. split.
    + apply list_sort_descending.
      apply Forall_forall. intros r [_ Hr]%list_elem_of_filter.
      rewrite Forall_forall in Hnn. by apply Hnn.
    + intros Hmn. apply filter_all, Forall_true.
      intros r. by apply below_min_falsy.
  - intros base_url url max_results uuid1 now w img scores Hname Himg Hsc Hnn kept.
    assert (Hkept : kept
              = filter (fun r => below_min default_min_similarity r.2 = false)
                  scores).
    { rewrite filter_default_min. unfold kept.
      apply filter_ext_elem. intros r Hr.
      rewrite Forall_forall in Hnn. symmetry.
      apply np_lt_false_ge; [by apply Hnn | discriminate]. }
    split; [| split].
    + apply find_image_ranked with img; [done | done |].
      rewrite Hkept. by apply calc_similarities_without_exit.
    + apply list_sort_descending.
      apply Forall_forall. intros r [_ Hr]%list_elem_of_filter.
      rewrite Forall_forall in Hnn. by apply Hnn.
    + intros Hpos. unfold slice_to.
      by rewrite (proj2 (Z.leb_le 0 max_results) Hpos).
Qed.

End Ranking.

Lemma search_without_max_similarity_ranks_everything_witness :
  (find_image example_extract example_download example_hash
     "http://h/" "http://elsewhere/q.png" 5 None "uuid-1" 3%Z indexed_world).1
  = JSONResponse_find "uuid-1"
      (result_url "http://h/" <$>
         slice_to
           (list_sort true
              (filter (fun r => np_ge r.2 (Fin 0.2) = true) example_scores))
           5) /\
  descending
    (list_sort true
       (filter (fun r => np_ge r.2 (Fin 0.2) = true) example_scores)).
Proof.
  destruct (search_without_max_similarity_ranks_everything example_extract
              example_download example_hash) as (_ & _ & _ & Hfind).
  destruct (Hfind "http://h/" "http://elsewhere/q.png" 5%Z "uuid-1" 3%Z
              indexed_world (mkImage 1 1 "q") example_scores)
    as (Hanswer & Hsorted & _).
  - reflexivity.
  - reflexivity.
  - change (example_extract (mkImage 1 1 "q")) with [1%R].
    unfold indexed_world, example_index, example_scores, example_score,
      default_cosine_penalty_factor, default_euclidean_penalty_factor.
    cbn [images].
    repeat (constructor; [split; [reflexivity | apply calc_similarity_1d; lra] |]).
    constructor.
  - repeat constructor; discriminate.
  - split; [exact Hanswer | exact Hsorted].
Defined.

(* ===================================================================== *)
(** * Further properties of the code *)
(* ===================================================================== *)

(** ** More on [calc_similarity] *)

Section ScoreFacts.
Open Scope R_scope.

Lemma sum_squares_sub_comm (a b : ndarray) :
  sum_products (zip_with Rminus a b) (zip_with Rminus a b)
    = sum_products (zip_with Rminus b a) (zip_with Rminus b a).
Proof.
  revert b. induction a as [| x a IH]; intros [| y b]; simpl; try reflexivity.
  rewrite IH. ring.
Qed.

End ScoreFacts.

Lemma calc_similarity_swap (a b : ndarray) (cpf epf : R) :
  calc_similarity a b cpf epf = calc_similarity b a cpf epf.
Proof.
  unfold calc_similarity, np_dot, np_subtract.
  rewrite (Nat.eqb_sym (length b) (length a)).
  destruct (Nat.eqb (length a) (length b)); [| done].
  cbn [rbind]. unfold linalg_norm.
  rewrite (sum_products_comm b a), (sum_squares_sub_comm b a).
  rewrite !np_mul_fin.
  by rewrite (Rmult_comm (sqrt (sum_products b b))).
Qed.

(** X1. The score is symmetric in its two vectors: swapping them gives the
    same number, the same NaN or the same [ValueError]. *)
Theorem calc_similarity_symmetric (a b : ndarray) (cpf epf : R) :
  calc_similarity a b cpf epf = calc_similarity b a cpf epf.
Proof. apply calc_similarity_swap. Qed.

(** X2. [calc_similarity] raises exactly when the two vectors differ in
    length, and then it is [ValueError]. *)
Theorem calc_similarity_raises_iff_lengths_differ (a b : ndarray) (cpf epf : R) :
  (calc_similarity a b cpf epf = Raise ValueError <-> length a <> length b) /\
  (forall x, calc_similarity a b cpf epf = Raise x -> x = ValueError).
Proof.
  unfold calc_similarity, np_dot, np_subtract.
  destruct (Nat.eqb_spec (length a) (length b)) as [Heq | Hne]; cbn [rbind].
  - split; [| by intros x [=]]. split; [by intros [=] | done].
  - split; [done |]. by intros x [= <-].
Qed.

(** X3. A vector that is all zeros makes the score NaN on whichever side it
    stands: a published all-zero vector scores NaN against every query of
    its length, just as an all-zero query does against every published
    vector. *)
Theorem calc_similarity_nan_for_zero_vector (a b : ndarray) (cpf epf : R) :
  length a = length b ->
  all_zero a \/ all_zero b ->
  calc_similarity a b cpf epf = Ok NaN.
Proof.
  intros Hlen [Ha | Hb].
  - by apply calc_similarity_zero_query.
  - rewrite calc_similarity_swap. by apply calc_similarity_zero_query.
Qed.

Lemma calc_similarity_nan_for_zero_vector_witness :
  calc_similarity [1%R; 2%R] [0%R; 0%R] 4 0.2 = Ok NaN.
Proof.
  apply (calc_similarity_nan_for_zero_vector [1%R; 2%R] [0%R; 0%R] 4 0.2).
  - reflexivity.
  - right. by repeat constructor.
Defined.

(** ** More on [calc_similarities] *)

Section ScanFacts.

Lemma scan_paths_published reference_vector items mn mx cpf epf acc results :
  scan reference_vector items mn mx cpf epf acc = Ok results ->
  results.*1 ⊆+ acc.*1 ++ items.*1.
Proof.
  revert acc. induction items as [| [path vector] items IH]; intros acc Hscan.
  - cbn [scan] in Hscan. injection Hscan as <-.
    rewrite app_nil_r. apply Permutation_submseteq.
    by rewrite list_sort_perm.
  - cbn [scan] in Hscan.
    destruct (calc_similarity reference_vector vector cpf epf) as [s |];
      [| discriminate].
    cbn [rbind] in Hscan. cbn [fmap list_fmap fst].
    destruct (below_min mn s).
    + etrans; [by apply IH |].
      apply submseteq_skips_l. by apply submseteq_cons.
    + destruct (reaches_max mx s).
      * injection Hscan as <-. cbn [fmap list_fmap fst].
        apply submseteq_inserts_l. apply submseteq_skip, submseteq_nil_l.
      * etrans; [by apply IH |].
        rewrite fmap_app. cbn [fmap list_fmap fst].
        by rewrite <- app_assoc.
Qed.

(** The scan of an all-zero query, for the examples. *)
Lemma zero_query_scan (query : ndarray) (vectors : list (Path * ndarray))
    mn mx cpf epf :
  all_zero query ->
  Forall (fun item => length item.2 = length query) vectors ->
  calc_similarities query vectors mn mx cpf epf
    = Ok ((fun item => (item.1, NaN)) <$> vectors).
Proof.
  intros Hq Hlen. unfold calc_similarities.
  rewrite scan_to_the_end with (rs := (fun item => (item.1, NaN)) <$> vectors).
  - f_equal. rewrite app_nil_l, filter_all.
    + apply list_sort_incomparable.
      intros x y Hx _. by apply list_elem_of_fmap in Hx as (item & -> & _).
    + apply Forall_fmap, Forall_true. intros item. apply below_min_nan.
  - apply Forall2_fmap_r, Forall_Forall2_diag.
    eapply Forall_impl; [exact Hlen |].
    intros item Hitem. split; [done |]. by apply calc_similarity_zero_query.
  - apply Forall_fmap, Forall_true. intros item _. apply reaches_max_nan.
Qed.

Lemma NoDup_of_submseteq {A} (l k : list A) : l ⊆+ k -> NoDup k -> NoDup l.
Proof.
  intros [k' Hk]%submseteq_Permutation Hnd.
  rewrite Hk in Hnd. by apply NoDup_app in Hnd as [? _].
Qed.

End ScanFacts.

(** X5. Whatever [calc_similarities] returns is made of published entries,
    each at most as often as it is published and each with the score it gets
    against the query: there are never more results than entries, and no
    path is returned twice when no path is published twice. *)
Theorem calc_similarities_returns_published_entries
    (reference_vector : ndarray) (vectors : list (Path * ndarray))
    (min_similarity max_similarity : option R) (cpf epf : R)
    (results : list (Path * np_float)) :
  calc_similarities reference_vector vectors min_similarity max_similarity
    cpf epf = Ok results ->
  results.*1 ⊆+ vectors.*1 /\
  length results <= length vectors /\
  (NoDup vectors.*1 -> NoDup results.*1) /\
  Forall (fun r => exists item, item ∈ vectors /\
                     scored_by reference_vector cpf epf item r) results.
Proof.
  intros Hscan. unfold calc_similarities in Hscan.
  pose proof (scan_paths_published _ _ _ _ _ _ _ _ Hscan) as Hsub.
  cbn [fmap list_fmap app] in Hsub.
  split; [done |]. split; [| split].
  - apply submseteq_length in Hsub. by rewrite !length_fmap in Hsub.
  - intros Hnd. by apply (NoDup_of_submseteq _ _ Hsub).
  - apply Forall_forall. intros r Hr.
    destruct (scan_returns_kept _ _ _ _ _ _ _ _ _ Hscan Hr)
      as [Hnil | (_ & item & Hitem & Hscored)].
    + by apply elem_of_nil in Hnil.
    + by exists item.
Qed.

Lemma calc_similarities_returns_published_entries_witness :
  [("a.png", NaN); ("b.png", NaN)].*1 ⊆+
    [("a.png", [1%R; 2%R]); ("b.png", [0%R; 5%R])].*1 /\
  length [("a.png", NaN); ("b.png", NaN)]
    <= length [("a.png", [1%R; 2%R]); ("b.png", [0%R; 5%R])] /\
  (NoDup [("a.png", [1%R; 2%R]); ("b.png", [0%R; 5%R])].*1 ->
   NoDup [("a.png", NaN); ("b.png", NaN)].*1) /\
  Forall (fun r => exists item,
            item ∈ [("a.png", [1%R; 2%R]); ("b.png", [0%R; 5%R])] /\
            scored_by [0%R; 0%R] default_cosine_penalty_factor
              default_euclidean_penalty_factor item r)
    [("a.png", NaN); ("b.png", NaN)].
Proof.
  apply (calc_similarities_returns_published_entries [0%R; 0%R]
           [("a.png", [1%R; 2%R]); ("b.png", [0%R; 5%R])]
           default_min_similarity default_max_similarity
           default_cosine_penalty_factor default_euclidean_penalty_factor).
  apply (zero_query_scan [0%R; 0%R]); repeat constructor.
Defined.

(** ** More on file names and [list_files] *)

Section NameFacts.

Lemma rfind_dot_Some_inv s i :
  rfind_dot s = Some i ->
  exists a b, s = a +:+ String dot_char b /\ String.length a = i /\
              rfind_dot b = None.
Proof.
  revert i. induction s as [| c s IH]; intros i; simpl; [done |].
  destruct (rfind_dot s) as [j |] eqn:Hs.
  - intros [= <-]. destruct (IH j eq_refl) as (a & b & -> & Ha & Hb).
    exists (String c a), b. rewrite append_cons. simpl. by rewrite Ha.
  - destruct (Ascii.eqb c dot_char) eqn:Hc; [| done].
    intros [= <-]. apply Ascii.eqb_eq in Hc as ->. by exists "", s.
Qed.

(** The suffix and the stem of [st.ext]. *)
Lemma suffix_stem_app st ext :
  st <> "" -> ext <> "" -> rfind_dot ext = None ->
  suffix (st +:+ String dot_char ext) = String dot_char ext /\
  stem (st +:+ String dot_char ext) = st.
Proof.
  intros Hst Hext Hnodot.
  assert (Hsuf : suffix (st +:+ String dot_char ext) = String dot_char ext).
  { unfold suffix. rewrite rfind_dot_app. cbn [rfind_dot]. rewrite Hnodot.
    change (Ascii.eqb dot_char dot_char) with true. cbv iota.
    destruct st as [| c st]; [done |]. cbn [String.length].
    rewrite Nat.add_0_r, length_append. cbn [String.length].
    destruct ext as [| d ext]; [done |]. cbn [String.length].
    destruct (Nat.ltb_spec (S (String.length st))
                (S (String.length st) + S (S (String.length ext)) - 1)); [| lia].
    replace (S (String.length st) + S (S (String.length ext))
             - S (String.length st)) with (S (S (String.length ext))) by lia.
    change (S (String.length st)) with (String.length (String c st)).
    rewrite substring_length_app.
    apply (substring_0_all (String dot_char (String d ext))). }
  split; [done |].
  unfold stem. rewrite Hsuf, length_append.
  replace (String.length st + String.length (String dot_char ext)
           - String.length (String dot_char ext)) with (String.length st) by lia.
  apply substring_0_length.
Qed.

(** A non-empty suffix is a dot and an extension without dot, after a
    non-empty stem. *)
Lemma suffix_inv name ext :
  suffix name = String dot_char ext ->
  name = stem name +:+ String dot_char ext /\ stem name <> "" /\
  ext <> "" /\ rfind_dot ext = None.
Proof.
  intros Hsuf.
  assert (Hname : name = stem name +:+ String dot_char ext).
  { by rewrite <- Hsuf, stem_suffix. }
  split; [done |].
  unfold suffix in Hsuf.
  destruct (rfind_dot name) as [[| i] |] eqn:Hdot; try done.
  destruct (Nat.ltb_spec (S i) (String.length name - 1)) as [Hlt |]; [| done].
  destruct (rfind_dot_Some_inv _ _ Hdot) as (a & b & Hab & Ha & Hb).
  assert (Hane : a <> "") by (intros ->; done).
  assert (Hbne : b <> "").
  { intros ->. rewrite Hab, length_append in Hlt. simpl in Hlt. lia. }
  destruct (suffix_stem_app a b Hane Hbne Hb) as [Hs Hst].
  rewrite <- Hab in Hs, Hst.
  assert (ext = b).
  { unfold suffix in Hs. rewrite Hdot in Hs.
    destruct (Nat.ltb (S i) (String.length name - 1)); congruence. }
  subst ext. by rewrite Hst.
Qed.

Lemma prefix_dot_false e : rfind_dot e = None -> String.prefix "." e = false.
Proof.
  destruct e as [| c e]; [done |]. cbn [rfind_dot].
  destruct (rfind_dot e); [done |].
  destruct (Ascii.eqb c dot_char) eqn:Hc; [done |]. intros _.
  apply Ascii.eqb_neq in Hc.
  change (String.prefix "." (String c e))
    with (if ascii_dec "." c then String.prefix "" e else false).
  destruct (ascii_dec "." c) as [Heq | _]; [by destruct Hc | done].
Qed.

Lemma normalize_extension_idemp e :
  normalize_extension (normalize_extension e) = normalize_extension e.
Proof.
  unfold normalize_extension.
  destruct (String.prefix "." e) eqn:He; [by rewrite He |].
  change (String.prefix "." ("." +:+ e))
    with (if ascii_dec "." dot_char then String.prefix "" e else false).
  destruct (ascii_dec "." dot_char) as [_ | Hne]; [| done].
  by destruct e.
Qed.

End NameFacts.

(** X6. For extensions written without a dot (as [image_extensions] and
    ["npy"] are), [list_files] returns nothing but entries of the directory
    named [<stem>.<ext>] with a non-empty stem and [ext] one of the
    extensions, compared case-sensitively. *)
Theorem list_files_lists_only_names_with_extension
    (names exts : list string) (file : string) :
  Forall (fun ext => ext <> "" /\ rfind_dot ext = None) exts ->
  file ∈ list_files names exts ->
  file ∈ names /\
  exists st ext, ext ∈ exts /\ st <> "" /\ file = st +:+ "." +:+ ext.
Proof.
  intros Hexts [Hsuf Hin]%elem_of_list_files. rewrite Forall_forall in Hexts.
  split; [done |].
  apply list_elem_of_fmap in Hsuf as (ext & Hsuf & Hext).
  destruct (Hexts _ Hext) as [Hne Hnodot].
  unfold normalize_extension in Hsuf.
  rewrite (prefix_dot_false _ Hnodot) in Hsuf.
  apply suffix_inv in Hsuf as (Hname & Hst & _ & _).
  by exists (stem file), ext.
Qed.

Lemma list_files_lists_only_names_with_extension_witness :
  "photo.jpeg" ∈ ["photo.jpeg"; ".png"; "x.PNG"] /\
  exists st ext, ext ∈ image_extensions /\ st <> "" /\
                 "photo.jpeg" = st +:+ "." +:+ ext.
Proof.
  apply (list_files_lists_only_names_with_extension
           ["photo.jpeg"; ".png"; "x.PNG"] image_extensions "photo.jpeg").
  - repeat constructor; done.
  - vm_compute. by left.
Defined.

(** X7. An extension may be given with or without its leading dot, and what
    [list_files] returns is a sub-list of the directory listing, in its
    order. *)
Theorem list_files_extension_dot_is_optional (names exts : list string) :
  list_files names (normalize_extension <$> exts) = list_files names exts /\
  list_files names exts `sublist_of` names.
Proof.
  split.
  - unfold list_files. rewrite <- list_fmap_compose.
    apply list_filter_iff. intros file.
    rewrite (list_fmap_ext (normalize_extension ∘ normalize_extension)
               normalize_extension exts); [done |].
    intros i ext _. apply normalize_extension_idemp.
  - unfold list_files. apply sublist_filter.
Qed.

(** ** [extract_name_extension] *)

Section UrlFacts.

Lemma strip_prefix_Some p s r : strip_prefix p s = Some r <-> s = p +:+ r.
Proof.
  revert s. induction p as [| a p IH]; intros s.
  - simpl. change ("" +:+ r) with r. split; congruence.
  - destruct s as [| b s]; simpl.
    + rewrite append_cons. split; discriminate.
    + rewrite append_cons. destruct (Ascii.eqb a b) eqn:Hab.
      * apply Ascii.eqb_eq in Hab as ->. rewrite IH. split; congruence.
      * apply Ascii.eqb_neq in Hab. split; [discriminate | congruence].
Qed.

Lemma strip_final_newline_cases s :
  s = strip_final_newline s \/
  s = strip_final_newline s +:+ String newline_char "".
Proof.
  induction s as [| c s IH]; [by left |].
  destruct s as [| d s].
  - simpl. destruct (Ascii.eqb c newline_char) eqn:Hc; [| by left].
    right. by apply Ascii.eqb_eq in Hc as ->.
  - change (strip_final_newline (String c (String d s)))
      with (String c (strip_final_newline (String d s))).
    destruct IH as [IH | IH]; [left | right]; rewrite ?append_cons; congruence.
Qed.

Lemma is_alnum_not_special c :
  is_alnum c = true ->
  c <> newline_char /\ c <> dot_char /\ c <> slash_char.
Proof.
  intros Hc. repeat split; intros ->; by vm_compute in Hc.
Qed.

Lemma strip_final_newline_alnum s ext :
  ext <> "" -> string_forall is_alnum ext = true ->
  strip_final_newline (s +:+ ext) = s +:+ ext.
Proof.
  intros Hext Hal.
  assert (Hbase : strip_final_newline ext = ext).
  { clear s. induction ext as [| c ext IH]; [done |].
    simpl in Hal. apply andb_true_iff in Hal as [Hc Hal].
    destruct ext as [| d ext].
    - simpl. apply is_alnum_not_special in Hc as (Hc & _ & _).
      apply Ascii.eqb_neq in Hc. by rewrite Hc.
    - change (strip_final_newline (String c (String d ext)))
        with (String c (strip_final_newline (String d ext))).
      by rewrite IH. }
  induction s as [| c s IH]; [done |].
  rewrite append_cons.
  destruct (s +:+ ext) as [| d t] eqn:Hst.
  - destruct s; [by subst | discriminate].
  - change (strip_final_newline (String c (String d t)))
      with (String c (strip_final_newline (String d t))).
    by rewrite IH.
Qed.

Lemma string_forall_app p s t :
  string_forall p (s +:+ t) = string_forall p s && string_forall p t.
Proof.
  induction s as [| c s IH]; [done |].
  rewrite append_cons. simpl. by rewrite IH, andb_assoc.
Qed.

Lemma alnum_no_dot ext : string_forall is_alnum ext = true -> rfind_dot ext = None.
Proof.
  induction ext as [| c ext IH]; [done |]. simpl.
  intros [Hc Hal]%andb_true_iff. rewrite IH by done.
  apply is_alnum_not_special in Hc as (_ & Hc & _).
  apply Ascii.eqb_neq in Hc. by rewrite Hc.
Qed.

Lemma alnum_no_slash ext :
  string_forall is_alnum ext = true ->
  string_forall (fun c => negb (Ascii.eqb c slash_char)) ext = true.
Proof.
  induction ext as [| c ext IH]; [done |]. simpl.
  intros [Hc Hal]%andb_true_iff. rewrite IH by done.
  apply is_alnum_not_special in Hc as (_ & _ & Hc).
  apply Ascii.eqb_neq in Hc. by rewrite Hc.
Qed.

(** What the pattern [[^/]+\.[a-zA-Z0-9]+] accepts. *)
Lemma matches_name_iff name :
  matches_name name = true <->
  exists st ext,
    name = st +:+ "." +:+ ext /\ st <> "" /\ ext <> "" /\
    string_forall is_alnum ext = true /\
    string_forall (fun c => negb (Ascii.eqb c slash_char)) st = true.
Proof.
  unfold matches_name. split.
  - intros [Hslash Hm]%andb_true_iff.
    destruct (rfind_dot name) as [[| i] |] eqn:Hdot; try done.
    apply andb_true_iff in Hm as [Hne Hal].
    destruct (rfind_dot_Some_inv _ _ Hdot) as (a & b & -> & Ha & Hb).
    assert (Hext : String.substring (S (S i))
                     (String.length (a +:+ String dot_char b) - S (S i))
                     (a +:+ String dot_char b) = b).
    { rewrite length_append. cbn [String.length].
      replace (String.length a + S (String.length b) - S (S i))
        with (String.length b) by lia.
      replace (a +:+ String dot_char b)
        with ((a +:+ String dot_char "") +:+ b)
        by (by rewrite append_assoc).
      replace (S (S i)) with (String.length (a +:+ String dot_char ""))
        by (rewrite length_append; simpl; lia).
      rewrite substring_length_app. apply substring_0_all. }
    rewrite Hext in Hne, Hal.
    exists a, b. split; [done |].
    split; [intros ->; done |].
    split; [intros ->; done |].
    split; [done |].
    rewrite string_forall_app in Hslash.
    by apply andb_true_iff in Hslash as [? _].
  - intros (st & ext & -> & Hst & Hext & Hal & Hslash).
    change ("." +:+ ext) with (String dot_char ext).
    apply andb_true_iff. split.
    + rewrite string_forall_app, Hslash. simpl. by apply alnum_no_slash.
    + rewrite rfind_dot_app. cbn [rfind_dot].
      rewrite (alnum_no_dot _ Hal).
      change (Ascii.eqb dot_char dot_char) with true. cbv iota.
      destruct st as [| c st]; [done |]. cbn [String.length Nat.add].
      rewrite Nat.add_0_r.
      assert (Hsub : String.substring (S (S (String.length st)))
                       (String.length (String c st +:+ String dot_char ext)
                        - S (S (String.length st)))
                       (String c st +:+ String dot_char ext) = ext).
      { rewrite length_append. cbn [String.length].
        replace (S (String.length st) + S (String.length ext)
                 - S (S (String.length st))) with (String.length ext) by lia.
        replace (String c st +:+ String dot_char ext)
          with ((String c st +:+ String dot_char "") +:+ ext)
          by (by rewrite append_assoc).
        replace (S (S (String.length st)))
          with (String.length (String c st +:+ String dot_char ""))
          by (rewrite length_append; simpl; lia).
        rewrite substring_length_app. apply substring_0_all. }
      rewrite Hsub, Hal.
      destruct ext; [done | done].
Qed.

End UrlFacts.

(** X8. When [extract_name_extension] returns a name, the URL is the base
    URL without its trailing slashes, then [/image/], then that name, with
    at most one newline after it; the name is [<stem>.<ext>] with a
    non-empty stem that holds no slash and a non-empty extension of ASCII
    letters and digits, so it names an entry of the images directory
    itself. *)
Theorem extract_name_extension_sound (url base_url name : string) :
  extract_name_extension url base_url = Some name ->
  (url = rstrip_slash base_url +:+ "/image/" +:+ name \/
   url = rstrip_slash base_url +:+ "/image/" +:+ name
         +:+ String newline_char "") /\
  exists st ext,
    name = st +:+ "." +:+ ext /\ st <> "" /\ ext <> "" /\
    string_forall is_alnum ext = true /\
    string_forall (fun c => negb (Ascii.eqb c slash_char)) st = true.
Proof.
  unfold extract_name_extension. intros H.
  destruct (strip_prefix _ url) as [rest |] eqn:Hrest; [| done].
  destruct (matches_name (strip_final_newline rest)) eqn:Hm; [| done].
  injection H as <-.
  apply strip_prefix_Some in Hrest. rewrite append_assoc in Hrest.
  split; [| by apply matches_name_iff].
  destruct (strip_final_newline_cases rest) as [Hr | Hr].
  - left. by rewrite <- Hr.
  - right. rewrite Hrest. by rewrite Hr at 1.
Qed.

Lemma extract_name_extension_sound_witness :
  ("http://h/image/a.png" = rstrip_slash "http://h//" +:+ "/image/" +:+ "a.png" \/
   "http://h/image/a.png" = rstrip_slash "http://h//" +:+ "/image/" +:+ "a.png"
         +:+ String newline_char "") /\
  exists st ext,
    "a.png" = st +:+ "." +:+ ext /\ st <> "" /\ ext <> "" /\
    string_forall is_alnum ext = true /\
    string_forall (fun c => negb (Ascii.eqb c slash_char)) st = true.
Proof.
  apply (extract_name_extension_sound "http://h/image/a.png" "http://h//" "a.png").
  reflexivity.
Defined.

Lemma extract_name_extension_complete (base_url st ext : string) :
  st <> "" -> ext <> "" ->
  string_forall is_alnum ext = true ->
  string_forall (fun c => negb (Ascii.eqb c slash_char)) st = true ->
  extract_name_extension
    (rstrip_slash base_url +:+ "/image/" +:+ st +:+ "." +:+ ext) base_url
    = Some (st +:+ "." +:+ ext).
Proof.
  intros Hst Hext Hal Hslash. unfold extract_name_extension.
  assert (Hp : strip_prefix (rstrip_slash base_url +:+ "/image/")
                 (rstrip_slash base_url +:+ "/image/" +:+ st +:+ "." +:+ ext)
               = Some (st +:+ "." +:+ ext)).
  { apply strip_prefix_Some. by rewrite append_assoc. }
  rewrite Hp.
  replace (st +:+ "." +:+ ext) with ((st +:+ ".") +:+ ext)
    by (by rewrite append_assoc).
  rewrite strip_final_newline_alnum by done.
  rewrite append_assoc.
  assert (Hm : matches_name (st +:+ "." +:+ ext) = true).
  { apply matches_name_iff. by exists st, ext. }
  by rewrite Hm.
Qed.

(** X9. Every URL made of the base URL without its trailing slashes,
    [/image/] and a name [<stem>.<ext>] (non-empty stem without slash,
    non-empty extension of ASCII letters and digits) is recognised, and the
    name is what comes back. *)
Theorem extract_name_extension_recognises_image_urls
    (base_url st ext : string) :
  st <> "" -> ext <> "" ->
  string_forall is_alnum ext = true ->
  string_forall (fun c => negb (Ascii.eqb c slash_char)) st = true ->
  extract_name_extension
    (rstrip_slash base_url +:+ "/image/" +:+ st +:+ "." +:+ ext) base_url
    = Some (st +:+ "." +:+ ext).
Proof. apply extract_name_extension_complete. Qed.

Lemma extract_name_extension_recognises_image_urls_witness :
  extract_name_extension
    (rstrip_slash "http://h/" +:+ "/image/" +:+ "00ff" +:+ "." +:+ "jpeg")
    "http://h/"
  = Some ("00ff" +:+ "." +:+ "jpeg").
Proof.
  apply (extract_name_extension_recognises_image_urls "http://h/" "00ff" "jpeg");
    done.
Defined.

(** ** More on [load_features] *)

Section LoadFacts.

Variable Image_open : bytes -> result Image.
Variable extract_func : Image -> ndarray.

Local Abbreviation load_loop' := (load_loop Image_open extract_func).
Local Abbreviation is_image_file :=
  (fun p : string => suffix p ∈ normalize_extension <$> image_extensions).

Lemma dict_set_keys_fresh {V} (d : list (string * V)) k v :
  k ∉ d.*1 -> (dict_set d k v).*1 = d.*1 ++ [k].
Proof.
  induction d as [| [k' v'] d IH]; intros Hk; [done |].
  cbn [fmap list_fmap fst] in Hk. apply not_elem_of_cons in Hk as [Hne Hk].
  cbn [dict_set]. destruct (String.eqb_spec k' k) as [-> | _]; [done |].
  cbn [fmap list_fmap fst app]. f_equal. by apply IH.
Qed.

Lemma dict_set_keys_present {V} (d : list (string * V)) k v :
  k ∈ d.*1 -> (dict_set d k v).*1 = d.*1.
Proof.
  induction d as [| [k' v'] d IH]; intros Hk; [by apply elem_of_nil in Hk |].
  cbn [dict_set]. destruct (String.eqb_spec k' k) as [-> | Hne]; [done |].
  cbn [fmap list_fmap fst] in *. f_equal. apply IH.
  apply elem_of_cons in Hk as [-> | Hk]; [done | done].
Qed.

(** Whatever the flags and the outcome, the loop leaves the images
    directory alone and only appends to the trace of extractor calls; with
    [save_cache] unset it leaves the cache directory alone too. *)
Lemma load_loop_touches fs cached save_cache load_cache acc e r e1 :
  load_loop' fs cached save_cache load_cache acc e = (r, e1) ->
  images_dir e1 = images_dir e /\
  extract_log e `prefix_of` extract_log e1 /\
  (save_cache = false -> cache_dir e1 = cache_dir e).
Proof.
  revert acc e. induction fs as [| p fs IH]; intros acc e Hrun.
  - cbn [load_loop] in Hrun. by injection Hrun as <- <-.
  - cbn [load_loop] in Hrun.
    destruct (if load_cache then cached !! p else None) as [f |].
    + destruct (cache_files e !! f) as [v |].
      * by apply IH in Hrun.
      * by injection Hrun as <- <-.
    + destruct (images_dir e !! p) as [content |];
        [| by injection Hrun as <- <-].
      destruct (Image_open content) as [img |];
        [| by injection Hrun as <- <-].
      apply IH in Hrun as (Himgs & Hlog & Hcache). cbn in Himgs, Hlog, Hcache.
      split; [done |]. split.
      * etrans; [| exact Hlog]. by apply prefix_app_r.
      * intros ->. by apply Hcache.
Qed.

(** A run that succeeds returns one entry per file, in the order of the
    files. *)
Lemma load_loop_keys fs cached save_cache load_cache acc e feats e1 :
  NoDup (acc.*1 ++ fs) ->
  load_loop' fs cached save_cache load_cache acc e = (Ok feats, e1) ->
  feats.*1 = acc.*1 ++ fs.
Proof.
  revert acc e. induction fs as [| p fs IH]; intros acc e Hnd Hrun.
  - cbn [load_loop] in Hrun. injection Hrun as <- <-. by rewrite app_nil_r.
  - assert (Hp : p ∉ acc.*1).
    { apply NoDup_app in Hnd as (_ & Hdisj & _).
      intros Hin. apply (Hdisj _ Hin). by left. }
    assert (Hstep : forall v, (dict_set acc p v).*1 ++ fs = acc.*1 ++ p :: fs).
    { intros v. rewrite dict_set_keys_fresh by done. by rewrite <- app_assoc. }
    cbn [load_loop] in Hrun.
    destruct (if load_cache then cached !! p else None) as [f |].
    + destruct (cache_files e !! f) as [v |]; [| done].
      apply IH in Hrun; rewrite Hstep in *; done.
    + destruct (images_dir e !! p) as [content |]; [| done].
      destruct (Image_open content) as [img |]; [| done].
      apply IH in Hrun; rewrite Hstep in *; done.
Qed.

(** The extractor is called once for every file that is not read from the
    cache. *)
Lemma load_loop_extract_count fs cached save_cache load_cache acc e feats e1 :
  load_loop' fs cached save_cache load_cache acc e = (Ok feats, e1) ->
  length (extract_log e1)
    = length (extract_log e)
      + length (filter (fun p => (if load_cache then cached !! p else None) = None)
                  fs).
Proof.
  revert acc e. induction fs as [| p fs IH]; intros acc e Hrun.
  - cbn [load_loop] in Hrun. injection Hrun as <- <-. simpl. lia.
  - cbn [load_loop] in Hrun.
    destruct (if load_cache then cached !! p else None) as [f |] eqn:Hc.
    + destruct (cache_files e !! f) as [v |]; [| done].
      apply IH in Hrun. rewrite filter_cons_False; [done |].
      by rewrite Hc.
    + destruct (images_dir e !! p) as [content |]; [| done].
      destruct (Image_open content) as [img |]; [| done].
      apply IH in Hrun. cbn [extract_log] in Hrun.
      rewrite filter_cons_True by done.
      rewrite length_app in Hrun. simpl in *. lia.
Qed.

Lemma dict_set_elem_same {V} (d : list (string * V)) k v :
  (k, v) ∈ dict_set d k v.
Proof.
  induction d as [| [k' v'] d IH]; cbn [dict_set]; [by left |].
  destruct (String.eqb_spec k' k) as [-> | _]; [by left | by right].
Qed.

Lemma dict_set_elem_other {V} (d : list (string * V)) k v q x :
  q <> k -> (q, x) ∈ d -> (q, x) ∈ dict_set d k v.
Proof.
  intros Hne. induction d as [| [k' v'] d IH]; intros Hin;
    [by apply elem_of_nil in Hin |].
  cbn [dict_set]. destruct (String.eqb_spec k' k) as [-> | _].
  - apply elem_of_cons in Hin as [[= -> ->] | Hin]; [done | by right].
  - apply elem_of_cons in Hin as [[= -> ->] | Hin]; [by left | right; by apply IH].
Qed.

(** An entry of [features] under a path that the loop does not visit is
    still there when the loop ends. *)
Lemma load_loop_keeps fs cached save_cache load_cache acc e feats e1 q x :
  load_loop' fs cached save_cache load_cache acc e = (Ok feats, e1) ->
  q ∉ fs -> (q, x) ∈ acc -> (q, x) ∈ feats.
Proof.
  revert acc e. induction fs as [| p fs IH]; intros acc e Hrun Hq Hin.
  - cbn [load_loop] in Hrun. by injection Hrun as <- <-.
  - apply not_elem_of_cons in Hq as [Hne Hq]. cbn [load_loop] in Hrun.
    destruct (if load_cache then cached !! p else None) as [f |].
    + destruct (cache_files e !! f) as [v |]; [| done].
      eapply IH; [exact Hrun | done | by apply dict_set_elem_other].
    + destruct (images_dir e !! p) as [content |]; [| done].
      destruct (Image_open content) as [img |]; [| done].
      eapply IH; [exact Hrun | done | by apply dict_set_elem_other].
Qed.

(** A run that succeeds has opened every file that it did not read from the
    cache, handed the decoded image to the extractor and returned what the
    extractor made of it. *)
Lemma load_loop_decodes fs cached save_cache load_cache acc e feats e1 p content :
  NoDup fs ->
  load_loop' fs cached save_cache load_cache acc e = (Ok feats, e1) ->
  p ∈ fs ->
  (if load_cache then cached !! p else None) = None ->
  images_dir e !! p = Some content ->
  exists img,
    Image_open content = Ok img /\
    img ∈ extract_log e1 /\
    (p, extract_func img) ∈ feats.
Proof.
  intros Hnd. revert acc e.
  induction fs as [| q fs IH]; intros acc e Hrun Hp Hc Hcontent;
    [by apply elem_of_nil in Hp |].
  apply NoDup_cons in Hnd as [Hq Hnd]. cbn [load_loop] in Hrun.
  apply elem_of_cons in Hp as [-> | Hp].
  - rewrite Hc, Hcontent in Hrun.
    destruct (Image_open content) as [img |] eqn:Hopen; [| done].
    exists img. split; [done |]. split.
    + pose proof (load_loop_touches _ _ _ _ _ _ _ _ Hrun) as (_ & [k Hlog] & _).
      cbn [extract_log] in Hlog. rewrite Hlog.
      apply elem_of_app. left. apply elem_of_app. right. by left.
    + eapply load_loop_keeps; [exact Hrun | done | apply dict_set_elem_same].
  - destruct (if load_cache then cached !! q else None) as [f |].
    + destruct (cache_files e !! f) as [v |]; [| done].
      by eapply (IH Hnd).
    + destruct (images_dir e !! q) as [c |]; [| done].
      destruct (Image_open c) as [i |]; [| done].
      by eapply (IH Hnd).
Qed.

End LoadFacts.

Section LoadCacheFacts.

Variable Image_open : bytes -> result Image.
Variable extract_func : Image -> ndarray.

Local Abbreviation load_loop' := (load_loop Image_open extract_func).
Local Abbreviation is_image_file :=
  (fun p : string => suffix p ∈ normalize_extension <$> image_extensions).

(** What the index of the cache directory knows is there. *)
Lemma cached_files_exists e p f :
  stem_index
    match cache_dir e with
    | Some d => list_files (iterdir d) ["npy"]
    | None => []
    end !! p = Some f ->
  is_Some (cache_files e !! f).
Proof.
  intros [Hin _]%stem_index_lookup_Some. unfold cache_files.
  destruct (cache_dir e) as [d |]; [| by apply elem_of_nil in Hin].
  apply elem_of_list_files in Hin as [_ Hin]. by apply elem_of_iterdir.
Qed.

(** An image file is missing from the index exactly when the cache
    directory has no file named after it. *)
Lemma cached_files_miss e p :
  p <> "" ->
  stem_index
    match cache_dir e with
    | Some d => list_files (iterdir d) ["npy"]
    | None => []
    end !! p = None <->
  cache_files e !! (p +:+ ".npy") = None.
Proof.
  intros Hp. split.
  - intros Hmiss.
    destruct (cache_files e !! (p +:+ ".npy")) as [v |] eqn:Hv; [| done].
    apply (cached_files_hit e p v Hp) in Hv. congruence.
  - intros Hnone.
    destruct (stem_index _ !! p) as [f |] eqn:Hf; [| done].
    pose proof (cached_files_name _ _ _ Hf) as ->.
    apply cached_files_exists in Hf as [v Hv]. congruence.
Qed.

(** With both flags set the loop never overwrites a file of the cache
    directory, whatever the outcome. *)
Lemma load_loop_grows fs cached acc e r e1 :
  NoDup fs ->
  Forall is_image_file fs ->
  (forall p, p ∈ fs -> cached !! p = None ->
             cache_files e !! (p +:+ ".npy") = None) ->
  load_loop' fs cached true true acc e = (r, e1) ->
  cache_files e ⊆ cache_files e1.
Proof.
  intros Hnd Himg. revert acc e.
  induction fs as [| p fs IH]; intros acc e Hfresh Hrun.
  - cbn [load_loop] in Hrun. by injection Hrun as <- <-.
  - apply NoDup_cons in Hnd as [Hp Hnd].
    apply Forall_cons in Himg as [Hpimg Himg].
    destruct (npy_name_image p Hpimg) as [Hpne Hpnpy].
    cbn [load_loop] in Hrun.
    destruct (cached !! p) as [f |] eqn:Hc.
    + destruct (cache_files e !! f) as [v |];
        [| by injection Hrun as <- <-].
      apply (IH Hnd Himg _ _
               (fun q Hq => Hfresh q (list_elem_of_further _ _ _ Hq)) Hrun).
    + destruct (images_dir e !! p) as [content |];
        [| by injection Hrun as <- <-].
      destruct (Image_open content) as [img |];
        [| by injection Hrun as <- <-].
      assert (Hnone : cache_files e !! (p +:+ ".npy") = None).
      { apply Hfresh; [by left | done]. }
      etrans; [| apply (IH Hnd Himg _ _ ) in Hrun; [exact Hrun |]].
      * rewrite cache_files_Some. unfold np_save.
        rewrite Hpnpy. by apply insert_subseteq.
      * intros q Hq Hcq. rewrite cache_files_Some. unfold np_save.
        rewrite Hpnpy, lookup_insert_ne.
        -- apply Hfresh; [by right | done].
        -- intros Heq. apply append_inj_l in Heq. by subst.
Qed.

End LoadCacheFacts.

Section LoadTheorems.

Variable Image_open : bytes -> result Image.
Variable extract_func : Image -> ndarray.

Local Abbreviation load_features' := (load_features Image_open extract_func).
Local Abbreviation image_files e :=
  (list_files (iterdir (images_dir e)) image_extensions).

Lemma image_files_NoDup e : NoDup (image_files e).
Proof. apply NoDup_list_files, NoDup_iterdir. Qed.

Lemma image_files_are_images e :
  Forall (fun p => suffix p ∈ normalize_extension <$> image_extensions)
    (image_files e).
Proof. apply Forall_forall. by intros p [Hs _]%elem_of_list_files. Qed.

Lemma image_files_exist e p : p ∈ image_files e -> is_Some (images_dir e !! p).
Proof. intros [_ Hin]%elem_of_list_files. by apply elem_of_iterdir. Qed.

Lemma image_files_fresh e p :
  p ∈ image_files e ->
  stem_index
    match cache_dir e with
    | Some d => list_files (iterdir d) ["npy"]
    | None => []
    end !! p = None ->
  cache_files e !! (p +:+ ".npy") = None.
Proof.
  intros [Hs _]%elem_of_list_files. apply npy_name_image in Hs as [Hp _].
  by apply cached_files_miss.
Qed.

(** X10. Whatever the flags and whether it succeeds or raises,
    [load_features] never changes the images directory and only appends to
    the trace of extractor calls.  With [save_cache] unset it leaves the
    cache directory as it found it; with both flags set it only adds files
    to the cache directory and never overwrites one. *)
Theorem load_features_only_adds (save_cache load_cache : bool) (e : env) :
  images_dir (load_features' save_cache load_cache e).2 = images_dir e /\
  extract_log e `prefix_of` extract_log (load_features' save_cache load_cache e).2 /\
  (save_cache = false ->
   cache_dir (load_features' save_cache load_cache e).2 = cache_dir e) /\
  cache_files e ⊆ cache_files (load_features' true true e).2.
Proof.
  split; [| split; [| split]].
  - destruct (load_features' save_cache load_cache e) as [r e1] eqn:Hrun.
    unfold load_features in Hrun. by apply load_loop_touches in Hrun as (? & _ & _).
  - destruct (load_features' save_cache load_cache e) as [r e1] eqn:Hrun.
    unfold load_features in Hrun. by apply load_loop_touches in Hrun as (_ & ? & _).
  - destruct (load_features' save_cache load_cache e) as [r e1] eqn:Hrun.
    unfold load_features in Hrun. by apply load_loop_touches in Hrun as (_ & _ & ?).
  - destruct (load_features' true true e) as [r e1] eqn:Hrun.
    unfold load_features in Hrun. apply load_loop_grows in Hrun; [done | | |].
    + apply image_files_NoDup.
    + apply image_files_are_images.
    + apply image_files_fresh.
Qed.

(** X11. What [load_features] returns when it succeeds has exactly one
    entry per image file of the directory, in the order of the listing. *)
Theorem load_features_returns_one_entry_per_image
    (save_cache load_cache : bool) (e e1 : env)
    (features : list (Path * ndarray)) :
  load_features' save_cache load_cache e = (Ok features, e1) ->
  features.*1 = image_files e /\
  NoDup features.*1 /\
  length features = length (image_files e).
Proof.
  intros Hrun. unfold load_features in Hrun.
  apply load_loop_keys in Hrun; [| apply image_files_NoDup].
  cbn [fmap list_fmap app] in Hrun.
  split; [done |]. split.
  - rewrite Hrun. apply image_files_NoDup.
  - by rewrite <- Hrun, length_fmap.
Qed.

(** X12. A run of [load_features] that succeeds calls the extractor once for
    every image file that it does not read from the cache: every image file
    when [load_cache] is unset, and otherwise those for which the cache
    directory has no file named after the image with [.npy] appended. *)
Theorem load_features_extracts_once_per_uncached_image
    (save_cache load_cache : bool) (e e1 : env)
    (features : list (Path * ndarray)) :
  load_features' save_cache load_cache e = (Ok features, e1) ->
  length (extract_log e1)
    = length (extract_log e)
      + length (filter (fun p => load_cache = false \/
                                 cache_files e !! (p +:+ ".npy") = None)
                  (image_files e)).
Proof.
  intros Hrun. unfold load_features in Hrun.
  apply load_loop_extract_count in Hrun. rewrite Hrun. f_equal. f_equal.
  apply filter_ext_elem. intros p [Hs _]%elem_of_list_files.
  apply npy_name_image in Hs as [Hp _].
  destruct load_cache.
  - rewrite (cached_files_miss e p Hp). split; [by right | by intros [? | ?]].
  - split; [by left | done].
Qed.

(** X13. A run of [load_features] that succeeds has decoded every image
    file that it does not read from the cache (every image file when
    [load_cache] is unset, otherwise those for which the cache directory has
    no file named after the image with [.npy] appended): [Image.open]
    accepted the file, the decoded image went to the extractor, and the
    vector returned under the file's path is what the extractor made of it.
    So an image file without a cached vector that cannot be decoded makes
    the load raise. *)
Theorem load_features_decodes_every_uncached_image
    (save_cache load_cache : bool) (e e1 : env)
    (features : list (Path * ndarray)) (p : string) (content : bytes) :
  load_features' save_cache load_cache e = (Ok features, e1) ->
  p ∈ image_files e ->
  load_cache = false \/ cache_files e !! (p +:+ ".npy") = None ->
  images_dir e !! p = Some content ->
  exists img,
    Image_open content = Ok img /\
    img ∈ extract_log e1 /\
    (p, extract_func img) ∈ features.
Proof.
  intros Hrun Hp Hmiss Hcontent. unfold load_features in Hrun.
  eapply load_loop_decodes;
    [apply image_files_NoDup | exact Hrun | exact Hp | | exact Hcontent].
  destruct load_cache; [| done].
  destruct Hmiss as [? | Hmiss]; [done |].
  apply elem_of_list_files in Hp as [Hs _].
  apply npy_name_image in Hs as [Hne _]. by apply cached_files_miss.
Qed.

End LoadTheorems.

Lemma load_features_returns_one_entry_per_image_witness :
  example_features.*1
    = list_files (iterdir (images_dir example_env)) image_extensions /\
  NoDup example_features.*1 /\
  length example_features
    = length (list_files (iterdir (images_dir example_env)) image_extensions).
Proof.
  apply (load_features_returns_one_entry_per_image example_open example_extract
           true true example_env example_env_loaded example_features).
  vm_compute. reflexivity.
Defined.

Lemma load_features_extracts_once_per_uncached_image_witness :
  length (extract_log example_env_loaded)
    = length (extract_log example_env)
      + length (filter (fun p => true = false \/
                                 cache_files example_env !! (p +:+ ".npy") = None)
                  (list_files (iterdir (images_dir example_env)) image_extensions)).
Proof.
  apply (load_features_extracts_once_per_uncached_image example_open
           example_extract true true example_env example_env_loaded
           example_features).
  vm_compute. reflexivity.
Defined.

Lemma load_features_decodes_every_uncached_image_witness :
  exists img,
    example_open "aa" = Ok img /\
    img ∈ extract_log example_env_loaded /\
    ("a.png", example_extract img) ∈ example_features.
Proof.
  apply (load_features_decodes_every_uncached_image example_open example_extract
           true true example_env example_env_loaded example_features
           "a.png" "aa").
  - vm_compute. reflexivity.
  - vm_compute. right. by left.
  - right. vm_compute. reflexivity.
  - vm_compute. reflexivity.
Defined.

(** ** More on the sweep *)

Import Invariants.

Section SweepFacts.

Lemma cleanup_expired_requests_outside now w :
  outside (cleanup_expired_requests now w) = outside w /\
  images (cleanup_expired_requests now w) = images w.
Proof. done. Qed.

Lemma world_eq w1 w2 :
  outside w1 = outside w2 -> images w1 = images w2 ->
  requests_cache w1 = requests_cache w2 -> w1 = w2.
Proof. destruct w1, w2. simpl. by intros -> -> ->. Qed.

End SweepFacts.

(** X14. A sweep only removes: what stays in the pending cache is what was
    there, unchanged; the index and the disk are not touched; after a sweep
    at [now] no pending entry is older than 180 s; and a sweep at [t1]
    followed by a sweep at a later [t2] leaves what the sweep at [t2] alone
    would leave, so sweeping twice at one time is sweeping once. *)
Theorem sweep_only_removes_and_composes (t1 t2 : datetime) (w : world) :
  requests_cache (cleanup_expired_requests t1 w) ⊆ requests_cache w /\
  outside (cleanup_expired_requests t1 w) = outside w /\
  images (cleanup_expired_requests t1 w) = images w /\
  pending_younger_than t1 (request_expire * 1000000)
    (cleanup_expired_requests t1 w) /\
  ((t1 <= t2)%Z ->
   cleanup_expired_requests t2 (cleanup_expired_requests t1 w)
     = cleanup_expired_requests t2 w).
Proof.
  split; [| split; [done | split; [done | split]]].
  - apply map_subseteq_spec. intros k e.
    rewrite cleanup_expired_requests_lookup.
    destruct (requests_cache w !! k) as [e' |]; [| done].
    by destruct (total_seconds_gt _ _).
  - intros k e. rewrite cleanup_expired_requests_lookup.
    destruct (requests_cache w !! k) as [e' |]; [| done].
    destruct (total_seconds_gt (t1 - created e') request_expire) eqn:Hexp;
      [done |].
    intros [= <-]. unfold total_seconds_gt in Hexp.
    apply Z.ltb_ge in Hexp. lia.
  - intros Hle. apply world_eq; [done | done |].
    apply map_eq. intros k. rewrite !cleanup_expired_requests_lookup.
    destruct (requests_cache w !! k) as [e |]; [| done].
    destruct (total_seconds_gt (t1 - created e) request_expire) eqn:H1;
      [| done].
    destruct (total_seconds_gt (t2 - created e) request_expire) eqn:H2;
      [done |].
    unfold total_seconds_gt in H1, H2.
    apply Z.ltb_lt in H1. apply Z.ltb_ge in H2. lia.
Qed.

(** ** The index as an insertion-ordered dict *)

Section DictFacts.

Context {V : Type}.
Implicit Types d : list (string * V).

Lemma dict_set_fresh d k v : k ∉ d.*1 -> dict_set d k v = d ++ [(k, v)].
Proof.
  induction d as [| [k' v'] d IH]; intros Hk; [done |].
  cbn [fmap list_fmap fst] in Hk. apply not_elem_of_cons in Hk as [Hne Hk].
  cbn [dict_set]. destruct (String.eqb_spec k' k) as [-> | _]; [done |].
  cbn [app]. f_equal. by apply IH.
Qed.

Lemma dict_set_NoDup d k v : NoDup d.*1 -> NoDup (dict_set d k v).*1.
Proof.
  intros Hnd. destruct (decide (k ∈ d.*1)) as [Hin | Hout].
  - by rewrite dict_set_keys_present.
  - rewrite dict_set_keys_fresh by done.
    apply NoDup_app. split; [done |]. split; [| apply NoDup_singleton].
    intros x Hx ->%list_elem_of_singleton. done.
Qed.

Lemma dict_set_elem_of d k v p x :
  NoDup d.*1 ->
  (p, x) ∈ dict_set d k v <-> (p = k /\ x = v) \/ (p <> k /\ (p, x) ∈ d).
Proof.
  induction d as [| [k' v'] d IH]; intros Hnd.
  - cbn [dict_set]. rewrite list_elem_of_singleton. split.
    + intros [= -> ->]. by left.
    + intros [[-> ->] | [_ H]]; [done | by apply elem_of_nil in H].
  - cbn [fmap list_fmap fst] in Hnd. apply NoDup_cons in Hnd as [Hk' Hnd].
    cbn [dict_set]. destruct (String.eqb_spec k' k) as [-> | Hne].
    + rewrite !elem_of_cons. split.
      * intros [[= -> ->] | Hin]; [by left |].
        right. split; [| by right].
        intros ->. apply Hk'. apply list_elem_of_fmap. by exists (k, x).
      * intros [[-> ->] | [Hpk [[= -> ->] | Hin]]]; [by left | done | by right].
    + rewrite !elem_of_cons, IH by done. split.
      * intros [[= -> ->] | [[-> ->] | [Hpk Hin]]].
        -- right. split; [done | by left].
        -- by left.
        -- right. split; [done | by right].
      * intros [[-> ->] | [Hpk [[= -> ->] | Hin]]].
        -- right. by left.
        -- by left.
        -- right. right. by split.
Qed.

Lemma dict_set_length d k v :
  length (dict_set d k v) = if decide (k ∈ d.*1) then length d else S (length d).
Proof.
  destruct (decide (k ∈ d.*1)) as [Hin | Hout].
  - rewrite <- (length_fmap fst (dict_set d k v)), dict_set_keys_present by done.
    by rewrite length_fmap.
  - rewrite dict_set_fresh by done. rewrite length_app. simpl. lia.
Qed.

Lemma dict_set_length_le d k v : length (dict_set d k v) <= S (length d).
Proof.
  induction d as [| [k' v'] d IH]; cbn [dict_set]; [done |].
  destruct (String.eqb k' k); cbn [length]; lia.
Qed.

(** Filling a dict with fresh, distinct keys appends the pairs in order. *)
Lemma filled_fresh d (fs : list string) (vs : list V) :
  NoDup (d.*1 ++ fs) ->
  foldl (fun d (pv : string * V) => dict_set d pv.1 pv.2) d (zip fs vs)
    = d ++ zip fs vs.
Proof.
  revert d vs. induction fs as [| p fs IH]; intros d vs Hnd.
  - cbn. by rewrite app_nil_r.
  - destruct vs as [| v vs]; [cbn; by rewrite app_nil_r |].
    cbn [zip zip_with foldl fst snd].
    assert (Hp : p ∉ d.*1).
    { apply NoDup_app in Hnd as (_ & Hdisj & _).
      intros Hin. apply (Hdisj _ Hin). by left. }
    rewrite dict_set_fresh by done. rewrite IH.
    + by rewrite <- app_assoc.
    + rewrite fmap_app. cbn [fmap list_fmap fst]. by rewrite <- app_assoc.
Qed.

End DictFacts.

(** ** Invariants of the handlers *)

Section InvariantFacts.

Variable Image_open : bytes -> result Image.
Variable extract_features : Image -> ndarray.
Variable load_image_from_url : string -> result Image.
Variable bytes_to_hash_hex : bytes -> string.
Variable jpeg_bytes : Image -> bytes.

Local Abbreviation find_image' :=
  (find_image extract_features load_image_from_url bytes_to_hash_hex).
Local Abbreviation save_image' := (save_image jpeg_bytes).
Local Abbreviation update_images' := (update_images Image_open extract_features).
Local Abbreviation handle' :=
  (handle Image_open extract_features load_image_from_url bytes_to_hash_hex
     jpeg_bytes).
Local Abbreviation run' :=
  (run Image_open extract_features load_image_from_url bytes_to_hash_hex
     jpeg_bytes).
Local Abbreviation consistent :=
  (pending_consistent extract_features bytes_to_hash_hex).

Lemma features_save_path_app h :
  with_suffix h ".jpeg.npy" = with_suffix h ".jpeg" +:+ ".npy".
Proof.
  unfold with_suffix. change ".jpeg.npy" with (".jpeg" +:+ ".npy").
  by rewrite append_assoc.
Qed.

Lemma Forall2_zip_elem {A B} (P : A -> B -> Prop) (l : list A) (k : list B) x y :
  Forall2 P l k -> (x, y) ∈ zip l k -> P x y.
Proof.
  induction 1 as [| a b l k Hab _ IH]; cbn [zip zip_with].
  - by intros ?%elem_of_nil.
  - intros [[= -> ->] | Hin]%elem_of_cons; [done | by apply IH].
Qed.

Lemma zip_elem_fst {A B} (l : list A) (k : list B) x y :
  (x, y) ∈ zip l k -> x ∈ l.
Proof.
  revert k. induction l as [| a l IH]; intros [| b k]; cbn [zip zip_with];
    try by intros ?%elem_of_nil.
  intros [[= -> ->] | Hin]%elem_of_cons; [by left | right; by eapply IH].
Qed.

(** *** What [find_image] changes *)

Lemma find_image_effects base_url url max_results max_similarity uuid1 now w :
  images (find_image' base_url url max_results max_similarity uuid1 now w).2
    = images w /\
  images_dir
    (outside (find_image' base_url url max_results max_similarity uuid1 now w).2)
    = images_dir (outside w) /\
  cache_dir
    (outside (find_image' base_url url max_results max_similarity uuid1 now w).2)
    = cache_dir (outside w) /\
  (forall request_id, request_id <> uuid1 ->
     requests_cache
       (find_image' base_url url max_results max_similarity uuid1 now w).2
       !! request_id = requests_cache w !! request_id).
Proof.
  unfold find_image.
  destruct (extract_name_extension url base_url).
  { by destruct (images_dir (outside w) !! _). }
  destruct (load_image_from_url url) as [img |]; [| done].
  destruct (calc_similarities _ _ _ _ _ _); [| done].
  cbn [snd images outside images_dir cache_dir requests_cache].
  repeat split. intros request_id Hne. by rewrite lookup_insert_ne.
Qed.

(** *** The index stays free of duplicates and durable *)

Lemma save_image_keeps_index base_url request_id w :
  index_keys_unique w -> index_durable w ->
  index_keys_unique (save_image' base_url request_id w).2 /\
  index_durable (save_image' base_url request_id w).2.
Proof.
  intros Huniq Hdur.
  destruct (requests_cache w !! request_id) as [cache |] eqn:Hreq;
    [| by rewrite save_image_not_found].
  destruct (decide (is_Some (images_dir (outside w) !! with_suffix (hash cache) ".jpeg") /\
                    is_Some (cache_files (outside w) !! with_suffix (hash cache) ".jpeg.npy")))
    as [[Hi Hn] | Hnot].
  - unfold save_image. rewrite Hreq, !bool_decide_eq_true_2 by done.
    cbn [andb snd]. split; [done |].
    intros path vector Hin. cbn [images outside images_dir] in *.
    rewrite cache_files_Some. by apply Hdur.
  - rewrite (save_image_saves _ _ _ _ _ Hreq Hnot). cbn [snd].
    split; [by apply dict_set_NoDup |].
    intros path vector Hin. cbn [images outside images_dir] in *.
    rewrite cache_files_Some, features_save_path_app.
    apply dict_set_elem_of in Hin as [[-> ->] | [Hne Hin]]; [| | done].
    + rewrite !lookup_insert_eq. split; [by eexists | done].
    + destruct (Hdur _ _ Hin) as [Hfile Hvec].
      rewrite !lookup_insert_ne; [done | | done].
      intros Heq. apply append_inj_l in Heq. by subst.
Qed.

Lemma update_images_keeps_index w :
  index_keys_unique w -> index_durable w ->
  index_keys_unique (update_images' w).2 /\
  index_durable (update_images' w).2.
Proof.
  intros Huniq Hdur. unfold update_images.
  destruct (Nat.eqb _ _); [done |].
  destruct (load_features _ _ _ _ _) as [[loaded | x] outside'] eqn:Hload;
    cbn [snd]; unfold load_features in Hload.
  - assert (Hkeys : loaded.*1
                     = list_files (iterdir (images_dir (outside w))) image_extensions).
    { eapply (load_loop_keys _ _ _ _ _ _ []); [| exact Hload].
      cbn [fmap list_fmap app]. apply NoDup_list_files, NoDup_iterdir. }
    split.
    { unfold index_keys_unique. cbn [images]. rewrite Hkeys.
      apply NoDup_list_files, NoDup_iterdir. }
    apply load_loop_populates in Hload as (Himgs & _ & vs & Hvs & ->).
    + intros path vector Hin. cbn [images outside] in *.
      rewrite filled_fresh in Hin
        by (cbn [fmap list_fmap app]; apply NoDup_list_files, NoDup_iterdir).
      cbn [app] in Hin. split.
      * rewrite Himgs. apply zip_elem_fst in Hin.
        apply elem_of_list_files in Hin as [_ Hin]. by apply elem_of_iterdir.
      * by apply (Forall2_zip_elem _ _ _ _ _ Hvs).
    + apply NoDup_list_files, NoDup_iterdir.
    + apply Forall_forall. by intros p [Hs _]%elem_of_list_files.
    + apply cached_files_name.
    + intros p [Hs _]%elem_of_list_files.
      apply npy_name_image in Hs as [Hp _]. by apply cached_files_miss.
  - split; [done |].
    pose proof (load_loop_touches _ _ _ _ _ _ _ _ _ _ Hload) as (Himgs & _ & _).
    apply load_loop_grows in Hload.
    + intros path vector Hin. cbn [images outside] in *.
      destruct (Hdur _ _ Hin) as [Hfile Hvec]. rewrite Himgs. split; [done |].
      by apply (lookup_weaken _ _ _ _ Hvec).
    + apply NoDup_list_files, NoDup_iterdir.
    + apply Forall_forall. by intros p [Hs _]%elem_of_list_files.
    + intros p [Hs _]%elem_of_list_files.
      apply npy_name_image in Hs as [Hp _]. by apply cached_files_miss.
Qed.

Lemma find_image_keeps_index base_url url max_results max_similarity uuid1 now w :
  index_keys_unique w -> index_durable w ->
  index_keys_unique
    (find_image' base_url url max_results max_similarity uuid1 now w).2 /\
  index_durable
    (find_image' base_url url max_results max_similarity uuid1 now w).2.
Proof.
  intros Huniq Hdur.
  destruct (find_image_effects base_url url max_results max_similarity uuid1 now w)
    as (Himages & Hdir & Hcache & _).
  unfold index_keys_unique, index_durable, cache_files.
  by rewrite Himages, Hdir, Hcache.
Qed.

Lemma handle_keeps_index w ev :
  index_keys_unique w -> index_durable w ->
  index_keys_unique (handle' w ev) /\ index_durable (handle' w ev).
Proof.
  intros Huniq Hdur. destruct ev; cbn [handle].
  - by apply find_image_keeps_index.
  - by apply save_image_keeps_index.
  - by apply update_images_keeps_index.
  - done.
Qed.

(** *** Pending entries stay consistent *)

Lemma handle_keeps_pending w ev : consistent w -> consistent (handle' w ev).
Proof.
  intros Hcons. destruct ev as [b u k m uuid1 now | b rid | | now]; cbn [handle].
  - intros request_id entry. unfold find_image.
    destruct (extract_name_extension u b).
    { destruct (images_dir (outside w) !! _); apply Hcons. }
    destruct (load_image_from_url u) as [img |]; [| apply Hcons].
    destruct (calc_similarities _ _ _ _ _ _); [| apply Hcons].
    cbn [snd requests_cache].
    destruct (decide (uuid1 = request_id)) as [-> | Hne].
    + rewrite lookup_insert_eq. by intros [= <-].
    + rewrite lookup_insert_ne by done. apply Hcons.
  - intros request_id entry.
    destruct (requests_cache w !! rid) as [cache |] eqn:Hreq;
      [| rewrite save_image_not_found by done; apply Hcons].
    destruct (decide (is_Some (images_dir (outside w) !! with_suffix (hash cache) ".jpeg") /\
                      is_Some (cache_files (outside w) !! with_suffix (hash cache) ".jpeg.npy")))
      as [[Hi Hn] | Hnot].
    + unfold save_image. rewrite Hreq, !bool_decide_eq_true_2 by done.
      apply Hcons.
    + rewrite (save_image_saves _ _ _ _ _ Hreq Hnot). cbn [snd requests_cache].
      destruct (Hcons _ _ Hreq) as (Hf & Hh & _).
      destruct (tweeted cache).
      * intros Hin. apply lookup_delete_Some in Hin as [_ Hin]. by apply Hcons in Hin.
      * destruct (decide (rid = request_id)) as [-> | Hne].
        -- rewrite lookup_insert_eq. by intros [= <-].
        -- rewrite lookup_insert_ne by done. apply Hcons.
  - intros request_id entry. rewrite update_images_keeps_cache. apply Hcons.
  - intros request_id entry. rewrite cleanup_expired_requests_lookup.
    destruct (requests_cache w !! request_id) as [e |] eqn:He; [| done].
    destruct (total_seconds_gt _ _); [done |].
    intros [= <-]. by apply Hcons in He.
Qed.

End InvariantFacts.

(** ** More on the handlers *)

Section HandlerTheorems.

Variable Image_open : bytes -> result Image.
Variable extract_features : Image -> ndarray.
Variable load_image_from_url : string -> result Image.
Variable bytes_to_hash_hex : bytes -> string.
Variable jpeg_bytes : Image -> bytes.

Local Abbreviation find_image' :=
  (find_image extract_features load_image_from_url bytes_to_hash_hex).
Local Abbreviation save_image' := (save_image jpeg_bytes).
Local Abbreviation update_images' := (update_images Image_open extract_features).
Local Abbreviation run' :=
  (run Image_open extract_features load_image_from_url bytes_to_hash_hex
     jpeg_bytes).

(** X15. A search never changes the index, the images directory or the
    cache directory, and in the pending cache it touches at most the entry
    of the identifier it was given. *)
Theorem find_image_is_read_only_on_index_and_disk
    (base_url url : string) (max_results : Z) (max_similarity : option R)
    (uuid1 : string) (now : datetime) (w : world) :
  images (find_image' base_url url max_results max_similarity uuid1 now w).2
    = images w /\
  images_dir
    (outside (find_image' base_url url max_results max_similarity uuid1 now w).2)
    = images_dir (outside w) /\
  cache_dir
    (outside (find_image' base_url url max_results max_similarity uuid1 now w).2)
    = cache_dir (outside w) /\
  (forall request_id, request_id <> uuid1 ->
     requests_cache
       (find_image' base_url url max_results max_similarity uuid1 now w).2
       !! request_id = requests_cache w !! request_id).
Proof. apply find_image_effects. Qed.

(** X16. Along every sequence of searches, commits, reconciliations and
    sweeps, a duplicate-free index stays duplicate-free and a durable index
    stays durable: every published vector has its image file in the images
    directory and is the content of the fingerprint file named after that
    image. *)
Theorem index_stays_unique_and_durable (w : world) (evs : list event) :
  index_keys_unique w -> index_durable w ->
  index_keys_unique (run' w evs) /\ index_durable (run' w evs).
Proof.
  revert w. induction evs as [| ev evs IH]; intros w Huniq Hdur; [done |].
  unfold run. cbn [foldl].
  destruct (handle_keeps_index Image_open extract_features load_image_from_url
              bytes_to_hash_hex jpeg_bytes w ev Huniq Hdur) as [Hu Hd].
  by apply IH.
Qed.

(** X17. Along every sequence of handler calls, every pending entry keeps
    carrying the fingerprint and the content hash of its own image, and is
    marked tweeted only if it is marked saved. *)
Theorem pending_entries_stay_consistent (w : world) (evs : list event) :
  pending_consistent extract_features bytes_to_hash_hex w ->
  pending_consistent extract_features bytes_to_hash_hex (run' w evs).
Proof.
  revert w. induction evs as [| ev evs IH]; intros w Hcons; [done |].
  unfold run. cbn [foldl]. apply IH.
  by apply (handle_keeps_pending Image_open extract_features
              load_image_from_url bytes_to_hash_hex jpeg_bytes).
Qed.

(** X18. A commit that is refused (404 or 409) leaves the index and the
    images directory as they were.  A commit that succeeds on a
    duplicate-free index writes the JPEG of the pending image, publishes the
    pending vector under the stored name, leaves every other published
    entry as it was and adds at most one entry. *)
Theorem save_image_publishes_the_pending_vector
    (base_url request_id : string) (w : world) :
  index_keys_unique w ->
  ((forall url, (save_image' base_url request_id w).1 <> SaveResponse url) ->
   images (save_image' base_url request_id w).2 = images w /\
   images_dir (outside (save_image' base_url request_id w).2)
     = images_dir (outside w)) /\
  (forall cache url,
     requests_cache w !! request_id = Some cache ->
     (save_image' base_url request_id w).1 = SaveResponse url ->
     let save_path := with_suffix (hash cache) ".jpeg" in
     let w' := (save_image' base_url request_id w).2 in
     (save_path, features cache) ∈ images w' /\
     images_dir (outside w') !! save_path = Some (jpeg_bytes (image cache)) /\
     (forall path vector, path <> save_path ->
        (path, vector) ∈ images w' <-> (path, vector) ∈ images w) /\
     length (images w') <= S (length (images w))).
Proof.
  intros Huniq.
  destruct (requests_cache w !! request_id) as [cache |] eqn:Hreq.
  2: { rewrite save_image_not_found by done. split; [done |]. by intros ? ? [=]. }
  destruct (decide (is_Some (images_dir (outside w) !! with_suffix (hash cache) ".jpeg") /\
                    is_Some (cache_files (outside w) !! with_suffix (hash cache) ".jpeg.npy")))
    as [[Hi Hn] | Hnot].
  - assert (Hrun : save_image' base_url request_id w
                   = (HTTPException 409,
                      mkWorld (mkEnv (images_dir (outside w))
                                 (Some (cache_files (outside w)))
                                 (extract_log (outside w)))
                        (images w) (requests_cache w))).
    { unfold save_image. by rewrite Hreq, !bool_decide_eq_true_2. }
    rewrite Hrun. split; [done |]. by intros ? ? _ [=].
  - rewrite (save_image_saves _ _ _ _ _ Hreq Hnot). split.
    + intros Hno. by destruct (Hno _ eq_refl).
    + intros cache' url [= <-] _ save_path w'. unfold w', save_path.
      cbn [snd images outside images_dir].
      split; [apply dict_set_elem_of; [done | by left] |].
      split; [by rewrite lookup_insert_eq |]. split.
      * intros path vector Hne. rewrite dict_set_elem_of by done.
        split; [by intros [[? _] | [_ ?]] | intros ?; by right].
      * apply dict_set_length_le.
Qed.

(** X19. After a search that fetched an image and ranked it, the returned
    identifier is pending: a commit with it is not answered 404, neither at
    once nor after a sweep that runs at most 180 s after the search; after a
    sweep that runs later than that, the commit is answered 404. *)
Theorem pending_request_expires_after_ttl
    (base_url url : string) (max_results : Z) (max_similarity : option R)
    (uuid1 : string) (t0 : datetime) (w : world) (img : Image)
    (ranked : list (Path * np_float)) :
  extract_name_extension url base_url = None ->
  load_image_from_url url = Ok img ->
  calc_similarities (extract_features img) (images w)
    default_min_similarity max_similarity
    default_cosine_penalty_factor default_euclidean_penalty_factor = Ok ranked ->
  let w1 := (find_image' base_url url max_results max_similarity uuid1 t0 w).2 in
  (forall base_url',
     (save_image' base_url' uuid1 w1).1 <> HTTPException 404) /\
  (forall now base_url',
     (now - t0 <= request_expire * 1000000)%Z ->
     (save_image' base_url' uuid1 (cleanup_expired_requests now w1)).1
       <> HTTPException 404) /\
  (forall now base_url',
     (request_expire * 1000000 < now - t0)%Z ->
     (save_image' base_url' uuid1 (cleanup_expired_requests now w1)).1
       = HTTPException 404).
Proof.
  intros Hname Himg Hranked w1.
  assert (Hpending : exists entry,
            requests_cache w1 !! uuid1 = Some entry /\ created entry = t0).
  { unfold w1, find_image. rewrite Hname, Himg, Hranked.
    cbn [snd requests_cache]. rewrite lookup_insert_eq. by eexists. }
  destruct Hpending as (entry & Hentry & Hcreated).
  assert (Hfound : forall base_url' w2,
            requests_cache w2 !! uuid1 = Some entry ->
            (save_image' base_url' uuid1 w2).1 <> HTTPException 404).
  { intros base_url' w2 Hw2.
    destruct (decide (is_Some (images_dir (outside w2) !! with_suffix (hash entry) ".jpeg") /\
                      is_Some (cache_files (outside w2) !! with_suffix (hash entry) ".jpeg.npy")))
      as [[Hi Hn] | Hnot].
    - by rewrite (save_image_conflict _ _ _ _ _ Hw2 Hi Hn).
    - by rewrite (save_image_saves _ _ _ _ _ Hw2 Hnot). }
  split; [| split].
  - intros base_url'. by apply Hfound.
  - intros now base_url' Hage. apply Hfound.
    rewrite cleanup_expired_requests_lookup, Hentry, Hcreated.
    unfold total_seconds_gt.
    by rewrite (proj2 (Z.ltb_ge _ _) Hage).
  - intros now base_url' Hage. rewrite save_image_not_found; [done |].
    rewrite cleanup_expired_requests_lookup, Hentry, Hcreated.
    unfold total_seconds_gt.
    by rewrite (proj2 (Z.ltb_lt _ _) Hage).
Qed.

End HandlerTheorems.

Section MoreHandlerTheorems.

Variable Image_open : bytes -> result Image.
Variable extract_features : Image -> ndarray.
Variable load_image_from_url : string -> result Image.
Variable bytes_to_hash_hex : bytes -> string.
Variable jpeg_bytes : Image -> bytes.

Local Abbreviation find_image' :=
  (find_image extract_features load_image_from_url bytes_to_hash_hex).
Local Abbreviation save_image' := (save_image jpeg_bytes).
Local Abbreviation update_images' := (update_images Image_open extract_features).

Lemma stem_without_dot h : rfind_dot h = None -> stem h = h.
Proof.
  intros Hdot. unfold stem, suffix. rewrite Hdot. cbn [String.length].
  rewrite Nat.sub_0_r. apply substring_0_all.
Qed.

(** X20. The URL that a successful commit returns is one of the server's
    own image URLs: when the base URL ends in exactly one slash and the
    content hash is a non-empty string of letters and digits, a search for
    that URL is answered with that single URL at similarity 1.0, without
    any download and without a new pending entry. *)
Theorem committed_image_url_is_recognised
    (base_url request_id : string) (w : world) (cache : RequestCacheEntry) :
  requests_cache w !! request_id = Some cache ->
  ~ (is_Some (images_dir (outside w) !! with_suffix (hash cache) ".jpeg") /\
     is_Some (cache_files (outside w) !! with_suffix (hash cache) ".jpeg.npy")) ->
  base_url = rstrip_slash base_url +:+ "/" ->
  hash cache <> "" ->
  string_forall is_alnum (hash cache) = true ->
  let url := base_url +:+ "image/" +:+ hash cache +:+ ".jpeg" in
  let w' := (save_image' base_url request_id w).2 in
  (save_image' base_url request_id w).1 = SaveResponse url /\
  forall max_results max_similarity uuid1 now,
    find_image' base_url url max_results max_similarity uuid1 now w'
      = (FindResponse uuid1 [(url, Fin 1)], w').
Proof.
  intros Hreq Hnot Hbase Hne Hal url w'.
  assert (Hstem : with_suffix (hash cache) ".jpeg" = hash cache +:+ ".jpeg").
  { unfold with_suffix. by rewrite stem_without_dot by by apply alnum_no_dot. }
  assert (Hurl : url = rstrip_slash base_url +:+ "/image/" +:+ hash cache
                       +:+ "." +:+ "jpeg").
  { unfold url. rewrite Hbase at 1. by rewrite append_assoc. }
  split.
  - rewrite (save_image_saves _ _ _ _ _ Hreq Hnot). cbn [fst]. by rewrite Hstem.
  - intros max_results max_similarity uuid1 now.
    rewrite (find_image_self_url _ _ _ _ _ _ _ _ _ _ (hash cache +:+ ".jpeg")).
    + done.
    + rewrite Hurl.
      apply (extract_name_extension_complete base_url (hash cache) "jpeg");
        [done | done | done | by apply alnum_no_slash].
    + unfold w'. rewrite (save_image_saves _ _ _ _ _ Hreq Hnot).
      cbn [snd outside images_dir]. rewrite Hstem, lookup_insert_eq. by eexists.
Qed.

(** X21. After a reconciliation step that succeeded, the index has as many
    entries as the images directory has image files, and the next step
    changes nothing. *)
Theorem update_images_settles (w w' : world) :
  update_images' w = (Ok tt, w') ->
  length (images w')
    = length (list_files (iterdir (images_dir (outside w'))) image_extensions) /\
  update_images' w' = (Ok tt, w').
Proof.
  intros Hrun.
  assert (Hcount : length (images w')
            = length (list_files (iterdir (images_dir (outside w')))
                        image_extensions)).
  { unfold update_images in Hrun.
    destruct (Nat.eqb_spec (length (images w))
                (length (list_files (iterdir (images_dir (outside w)))
                           image_extensions))) as [Heq | Hne].
    - by injection Hrun as <-.
    - destruct (load_features _ _ _ _ _) as [[loaded | x] outside'] eqn:Hload;
        [| discriminate].
      injection Hrun as <-. cbn [images outside].
      unfold load_features in Hload.
      pose proof (load_loop_touches _ _ _ _ _ _ _ _ _ _ Hload) as (Himgs & _ & _).
      eapply (load_loop_keys _ _ _ _ _ _ []) in Hload.
      + cbn [fmap list_fmap app] in Hload.
        by rewrite Himgs, <- Hload, length_fmap.
      + cbn [fmap list_fmap app]. apply NoDup_list_files, NoDup_iterdir. }
  split; [done |]. by apply update_images_same_count.
Qed.

Lemma slice_to_prefix {A} (l : list A) (stop : Z) : slice_to l stop `prefix_of` l.
Proof. unfold slice_to. destruct (0 <=? stop)%Z; apply prefix_take. Qed.

(** X22. Which searches leave a pending entry.  A search that the handler
    rejects, with 404 for an own URL of no file or with 400 for a download
    or a ranking that failed, stores nothing, and neither does a search for
    an own URL.  Every other search has stored its entry under the new
    identifier by the time the answer is built: so has the search that is
    then answered 500 because a score among its results is NaN or infinite,
    whose entry stays pending although no identifier reached the client. *)
Theorem search_stores_entry_unless_rejected
    (base_url url : string) (max_results : Z) (max_similarity : option R)
    (uuid1 : string) (now : datetime) (w : world)
    (answer : response) (w' : world) :
  find_image' base_url url max_results max_similarity uuid1 now w = (answer, w') ->
  (forall status_code,
     answer = HTTPException status_code ->
     requests_cache w' = requests_cache w /\
     (status_code = 404%Z \/ status_code = 400%Z)) /\
  (is_Some (extract_name_extension url base_url) ->
   requests_cache w' = requests_cache w) /\
  (extract_name_extension url base_url = None ->
   (forall status_code, answer <> HTTPException status_code) ->
   exists img entry,
     load_image_from_url url = Ok img /\
     requests_cache w' = <[uuid1 := entry]> (requests_cache w) /\
     image entry = img /\
     features entry = extract_features img /\
     hash entry = bytes_to_hash_hex (tobytes img) /\
     created entry = now /\
     saved entry = tweeted entry /\
     tweet_id entry = None) /\
  (answer = InternalServerError ->
   extract_name_extension url base_url = None /\
   is_Some (requests_cache w' !! uuid1)).
Proof.
  unfold find_image.
  destruct (extract_name_extension url base_url) as [file_name |].
  { destruct (images_dir (outside w) !! file_name).
    - intros [= <- <-]. split; [by intros ? [=] |]. split; [done |].
      split; [done |]. by intros [=].
    - intros [= <- <-]. split; [| split; [done |]; split; [done |]; by intros [=]].
      intros status_code [= <-]. split; [done | by left]. }
  destruct (load_image_from_url url) as [img |].
  2: { intros [= <- <-]. split.
       - intros status_code [= <-]. split; [done | by right].
       - split; [by intros [? [=]] |]. split; [| by intros [=]].
         intros _ Hnot. by destruct (Hnot 400%Z). }
  destruct (calc_similarities _ _ _ _ _ _) as [ranked |].
  2: { intros [= <- <-]. split.
       - intros status_code [= <-]. split; [done | by right].
       - split; [by intros [? [=]] |]. split; [| by intros [=]].
         intros _ Hnot. by destruct (Hnot 400%Z). }
  intros [= <- <-]. cbn [requests_cache].
  split; [| split; [by intros [? [=]] |]; split].
  - intros status_code. unfold JSONResponse_find. by destruct (forallb _ _).
  - intros _ _. eexists img, _. split; [done |]. split; [done |]. done.
  - intros _. split; [done |]. rewrite lookup_insert_eq. by eexists.
Qed.

(** X23. What a search answers with status 200.  For an own URL it is that
    URL alone at similarity 1.0, whatever [max_results] is.  For any other
    URL there are at most [max_results] results when that is not negative,
    and never more than there are published vectors; every result is the
    URL of a published image under [<base_url>image/] together with the
    score of its vector against the fingerprint of the downloaded image,
    and that score is a finite number not below 0.2. *)
Theorem search_results_are_published_and_capped
    (base_url url : string) (max_results : Z) (max_similarity : option R)
    (uuid1 : string) (now : datetime) (w : world)
    (request_id : string) (results : list (string * np_float)) :
  (find_image' base_url url max_results max_similarity uuid1 now w).1
    = FindResponse request_id results ->
  request_id = uuid1 /\
  (forall file_name,
     extract_name_extension url base_url = Some file_name ->
     results = [(base_url +:+ "image/" +:+ file_name, Fin 1)]) /\
  (extract_name_extension url base_url = None ->
   ((0 <= max_results)%Z -> length results <= Z.to_nat max_results) /\
   length results <= length (images w) /\
   exists img,
     load_image_from_url url = Ok img /\
     Forall (fun r => exists item,
               item ∈ images w /\
               r.1 = base_url +:+ "image/" +:+ item.1 /\
               calc_similarity (extract_features img) item.2
                 default_cosine_penalty_factor default_euclidean_penalty_factor
                 = Ok r.2 /\
               is_finite r.2 = true /\
               np_ge r.2 (Fin 0.2) = true) results).
Proof.
  unfold find_image.
  destruct (extract_name_extension url base_url) as [file_name |].
  { destruct (images_dir (outside w) !! file_name) as [content |] eqn:Hfile;
      cbn [fst]; [| discriminate].
    intros Hanswer.
    change (FindResponse uuid1 [((base_url +:+ "image/" +:+ file_name)%string, Fin 1)]
            = FindResponse request_id results) in Hanswer.
    injection Hanswer as <- <-.
    split; [done |]. split; [| done].
    by intros ? [= <-]. }
  destruct (load_image_from_url url) as [img |]; cbn [fst]; [| discriminate].
  destruct (calc_similarities _ _ _ _ _ _) as [ranked |] eqn:Hranked; cbn [fst];
    [| discriminate].
  unfold JSONResponse_find.
  destruct (forallb _ _) eqn:Hfinite; [| discriminate].
  intros [= <- <-].
  split; [done |]. split; [done |]. intros _.
  pose proof (slice_to_prefix ranked max_results) as Hprefix.
  unfold calc_similarities in Hranked.
  split; [| split].
  - intros Hpos. rewrite length_fmap. unfold slice_to.
    rewrite (proj2 (Z.leb_le 0 max_results) Hpos), length_take.
    apply Nat.le_min_l.
  - rewrite length_fmap. etrans; [by apply prefix_length |].
    pose proof (scan_paths_published _ _ _ _ _ _ _ _ Hranked) as Hsub.
    apply submseteq_length in Hsub. cbn [fmap list_fmap app] in Hsub.
    by rewrite !length_fmap in Hsub.
  - exists img. split; [done |]. apply Forall_forall. intros r Hr.
    assert (Hfin : is_finite r.2 = true).
    { rewrite forallb_forall in Hfinite. apply Hfinite.
      by apply list_elem_of_In. }
    apply list_elem_of_fmap in Hr as (r0 & -> & Hr0). cbn [result_url fst snd] in *.
    assert (Hin : r0 ∈ ranked) by (by eapply elem_of_prefix).
    destruct (scan_returns_kept _ _ _ _ _ _ _ _ _ Hranked Hin)
      as [Hnil | (Hkept & item & Hitem & Hpath & Hscore)];
      [by apply elem_of_nil in Hnil |].
    exists item. split; [done |]. split; [by rewrite Hpath |].
    split; [done |]. split; [done |].
    unfold default_min_similarity in Hkept.
    rewrite below_min_Some in Hkept by lra.
    apply np_lt_false_ge; [| discriminate | done].
    intros Hnan. by rewrite Hnan in Hfin.
Qed.

End MoreHandlerTheorems.

(** ** Errors of the ranking *)

Section ScanErrors.

Variable reference_vector : ndarray.
Variables min_similarity max_similarity : option R.
Variables cpf epf : R.

Lemma calc_similarity_same_length (b : ndarray) :
  length b = length reference_vector ->
  exists s, calc_similarity reference_vector b cpf epf = Ok s.
Proof.
  intros Hlen. unfold calc_similarity, np_dot, np_subtract.
  rewrite Hlen, Nat.eqb_refl. cbn [rbind]. by eexists.
Qed.

Lemma calc_similarity_other_length (b : ndarray) :
  length b <> length reference_vector ->
  calc_similarity reference_vector b cpf epf = Raise ValueError.
Proof.
  intros Hlen. unfold calc_similarity, np_dot.
  destruct (Nat.eqb_spec (length reference_vector) (length b)); [| done].
  by destruct Hlen.
Qed.

Lemma scan_same_lengths items acc :
  Forall (fun item : Path * ndarray => length item.2 = length reference_vector)
    items ->
  exists results,
    scan reference_vector items min_similarity max_similarity cpf epf acc
      = Ok results.
Proof.
  intros Hlen. revert acc.
  induction Hlen as [| [path vector] items Hv _ IH]; intros acc.
  - by eexists.
  - cbn [scan]. destruct (calc_similarity_same_length vector Hv) as [s ->].
    cbn [rbind]. destruct (below_min min_similarity s); [apply IH |].
    destruct (reaches_max max_similarity s); [by eexists | apply IH].
Qed.

Lemma scan_raises_at_other_length (pre post : list (Path * ndarray))
    path vector acc :
  Forall (fun item => exists t,
            calc_similarity reference_vector item.2 cpf epf = Ok t /\
            (below_min min_similarity t = false ->
             reaches_max max_similarity t = false)) pre ->
  length vector <> length reference_vector ->
  scan reference_vector (pre ++ (path, vector) :: post)%list
    min_similarity max_similarity cpf epf acc = Raise ValueError.
Proof.
  intros Hpre Hlen. revert acc.
  induction Hpre as [| [p v] pre (t & Ht & Hno) _ IH]; intros acc.
  - cbn [app scan]. by rewrite calc_similarity_other_length.
  - simpl in Ht, Hno. cbn [app scan]. rewrite Ht. cbn [rbind].
    destruct (below_min min_similarity t); [apply IH |].
    rewrite Hno by done. apply IH.
Qed.

Lemma scan_raises_ValueError items acc x :
  scan reference_vector items min_similarity max_similarity cpf epf acc = Raise x ->
  x = ValueError.
Proof.
  revert acc. induction items as [| [path vector] items IH]; intros acc;
    cbn [scan]; [done |].
  destruct (calc_similarity reference_vector vector cpf epf) as [s | y] eqn:Hs;
    cbn [rbind].
  - destruct (below_min min_similarity s); [apply IH |].
    destruct (reaches_max max_similarity s); [done | apply IH].
  - intros [= <-].
    unfold calc_similarity, np_dot, np_subtract in Hs.
    destruct (Nat.eqb _ _); cbn [rbind] in Hs; congruence.
Qed.

End ScanErrors.

(** X24. The ranking raises nothing but [ValueError], and only for a vector
    whose length is not the query's: when every published vector has the
    query's length it returns a result, and a vector of another length that
    the scan reaches (no earlier entry having ended it) makes it raise,
    whatever comes after. *)
Theorem calc_similarities_raises_only_on_length_mismatch
    (reference_vector : ndarray) (min_similarity max_similarity : option R)
    (cpf epf : R) :
  (forall vectors,
     Forall (fun item : Path * ndarray =>
               length item.2 = length reference_vector) vectors ->
     exists results,
       calc_similarities reference_vector vectors min_similarity max_similarity
         cpf epf = Ok results) /\
  (forall (pre post : list (Path * ndarray)) path vector,
     Forall (fun item => exists t,
               calc_similarity reference_vector item.2 cpf epf = Ok t /\
               (below_min min_similarity t = false ->
                reaches_max max_similarity t = false)) pre ->
     length vector <> length reference_vector ->
     calc_similarities reference_vector (pre ++ (path, vector) :: post)%list
       min_similarity max_similarity cpf epf = Raise ValueError) /\
  (forall vectors x,
     calc_similarities reference_vector vectors min_similarity max_similarity
       cpf epf = Raise x -> x = ValueError).
Proof.
  split; [| split].
  - intros vectors Hlen. by apply scan_same_lengths.
  - intros pre post path vector Hpre Hlen. by apply scan_raises_at_other_length.
  - intros vectors x. apply scan_raises_ValueError.
Qed.

(** ** The further properties on the example worlds *)

Lemma index_stays_unique_and_durable_witness :
  index_keys_unique
    (run example_open example_extract example_download example_hash
       example_jpeg unpublished_world example_later) /\
  index_durable
    (run example_open example_extract example_download example_hash
       example_jpeg unpublished_world example_later).
Proof.
  apply (index_stays_unique_and_durable example_open example_extract
           example_download example_hash example_jpeg
           unpublished_world example_later).
  - apply NoDup_nil_2.
  - intros path vector Hin. by apply elem_of_nil in Hin.
Defined.

Lemma pending_entries_stay_consistent_witness :
  pending_consistent example_extract example_hash
    (run example_open example_extract example_download example_hash
       example_jpeg unpublished_world example_later).
Proof.
  apply (pending_entries_stay_consistent example_open example_extract
           example_download example_hash example_jpeg
           unpublished_world example_later).
  intros request_id entry Hin.
  change (requests_cache unpublished_world) with (∅ : gmap string RequestCacheEntry) in Hin.
  by rewrite lookup_empty in Hin.
Defined.

Lemma save_image_publishes_the_pending_vector_witness :
  ("00ff.jpeg", features (example_entry false false))
    ∈ images (save_image example_jpeg "http://h/" "req-1"
                (example_world false false)).2.
Proof.
  destruct (save_image_publishes_the_pending_vector example_jpeg "http://h/"
              "req-1" (example_world false false)) as [_ H].
  - apply NoDup_nil_2.
  - by destruct (H (example_entry false false) "http://h/image/00ff.jpeg"
                   eq_refl eq_refl) as [Hin _].
Defined.

Lemma example_ranking :
  calc_similarities (example_extract (mkImage 1 1 "q")) (images indexed_world)
    default_min_similarity None
    default_cosine_penalty_factor default_euclidean_penalty_factor
  = Ok (list_sort true
          (filter (fun r => below_min default_min_similarity r.2 = false)
             example_scores)).
Proof.
  apply calc_similarities_without_exit; [done |].
  change (example_extract (mkImage 1 1 "q")) with [1%R].
  unfold indexed_world, example_index, example_scores, example_score,
    default_cosine_penalty_factor, default_euclidean_penalty_factor.
  cbn [images].
  repeat (constructor; [split; [reflexivity | apply calc_similarity_1d; lra] |]).
  constructor.
Qed.

Lemma pending_request_expires_after_ttl_witness :
  (save_image example_jpeg "http://h/" "uuid-1"
     (cleanup_expired_requests 181000003%Z
        (find_image example_extract example_download example_hash
           "http://h/" "http://elsewhere/q.png" 5 None "uuid-1" 3%Z
           indexed_world).2)).1
  = HTTPException 404.
Proof.
  destruct (pending_request_expires_after_ttl example_extract example_download
              example_hash example_jpeg
              "http://h/" "http://elsewhere/q.png" 5%Z None "uuid-1" 3%Z
              indexed_world (mkImage 1 1 "q") _ eq_refl eq_refl example_ranking)
    as (_ & _ & Hlate).
  apply Hlate. unfold request_expire. lia.
Defined.

Lemma committed_image_url_is_recognised_witness :
  (save_image example_jpeg "http://h/" "req-1" (example_world false false)).1
    = SaveResponse "http://h/image/00ff.jpeg" /\
  find_image example_extract example_download example_hash
    "http://h/" "http://h/image/00ff.jpeg" 5 None "uuid-9" 7%Z
    (save_image example_jpeg "http://h/" "req-1" (example_world false false)).2
  = (FindResponse "uuid-9" [("http://h/image/00ff.jpeg", Fin 1)],
     (save_image example_jpeg "http://h/" "req-1" (example_world false false)).2).
Proof.
  destruct (committed_image_url_is_recognised example_extract example_download
              example_hash example_jpeg "http://h/" "req-1"
              (example_world false false) (example_entry false false))
    as [Hsave Hfind].
  - reflexivity.
  - intros [[content Hcontent] _]. vm_compute in Hcontent. discriminate.
  - reflexivity.
  - discriminate.
  - reflexivity.
  - split; [exact Hsave | apply Hfind].
Defined.

Lemma update_images_settles_witness :
  length (images published_world)
    = length (list_files (iterdir (images_dir (outside published_world)))
                image_extensions) /\
  update_images example_open example_extract published_world
    = (Ok tt, published_world).
Proof.
  apply (update_images_settles example_open example_extract
           unpublished_world published_world).
  vm_compute. reflexivity.
Defined.

(** The search of the example on [poisoned_world]: the only published
    vector is all zeros, its score is NaN, and NaN passes the minimum. *)
Lemma poisoned_search :
  find_image example_extract example_download example_hash
    "http://h/" "http://elsewhere/q.png" 5 None "uuid-1" 3%Z poisoned_world
  = (InternalServerError, poisoned_world_searched).
Proof.
  assert (Hranked :
    calc_similarities (example_extract (mkImage 1 1 "q")) (images poisoned_world)
      default_min_similarity None
      default_cosine_penalty_factor default_euclidean_penalty_factor
    = Ok [("z.png", NaN)]).
  { unfold calc_similarities, poisoned_world. cbn [images scan].
    rewrite calc_similarity_swap, calc_similarity_zero_query;
      [| by repeat constructor | reflexivity].
    cbn [rbind]. by rewrite below_min_nan. }
  unfold find_image.
  change (extract_name_extension "http://elsewhere/q.png" "http://h/")
    with (@None string).
  change (example_download "http://elsewhere/q.png") with (Ok (mkImage 1 1 "q")).
  cbv iota beta zeta. rewrite Hranked.
  change (example_extract (mkImage 1 1 "q")) with [1%R].
  reflexivity.
Qed.

Lemma search_stores_entry_unless_rejected_witness :
  (find_image example_extract example_download example_hash
     "http://h/" "http://elsewhere/q.png" 5 None "uuid-1" 3%Z poisoned_world).1
    = InternalServerError /\
  is_Some
    (requests_cache
       (find_image example_extract example_download example_hash
          "http://h/" "http://elsewhere/q.png" 5 None "uuid-1" 3%Z
          poisoned_world).2 !! "uuid-1").
Proof.
  destruct (search_stores_entry_unless_rejected example_extract example_download
              example_hash "http://h/" "http://elsewhere/q.png" 5%Z None
              "uuid-1" 3%Z poisoned_world InternalServerError
              poisoned_world_searched poisoned_search)
    as (_ & _ & _ & Hstored).
  rewrite poisoned_search. split; [reflexivity |].
  by apply Hstored.
Defined.

(** The search of the example on [serving_world], whose one published
    vector is [[2]]. *)
Lemma serving_search :
  (find_image example_extract example_download example_hash
     "http://h/" "http://elsewhere/q.png" 5 None "uuid-1" 3%Z serving_world).1
  = FindResponse "uuid-1" [("http://h/image/a.png", example_score 2)].
Proof.
  rewrite (find_image_ranked example_extract example_download example_hash
             "http://h/" "http://elsewhere/q.png" 5%Z None "uuid-1" 3%Z
             serving_world (mkImage 1 1 "q") [("a.png", example_score 2)]);
    [reflexivity | reflexivity | reflexivity |].
  change (example_extract (mkImage 1 1 "q")) with [1%R].
  unfold calc_similarities, serving_world. cbn [images scan].
  unfold default_cosine_penalty_factor, default_euclidean_penalty_factor.
  rewrite calc_similarity_1d by lra. cbn [rbind].
  fold (example_score 2).
  assert (Hkept : below_min default_min_similarity (example_score 2) = false).
  { unfold default_min_similarity, example_score.
    rewrite below_min_Some by lra. apply np_lt_fin_false.
    pose proof (Rabs_pos (1 - 2)) as Habs.
    assert (0 < 1 / (1 + 0.2 * Rabs (1 - 2)))%R
      by (apply Rdiv_lt_0_compat; lra).
    lra. }
  by rewrite Hkept.
Qed.

Lemma search_results_are_published_and_capped_witness :
  "uuid-1" = "uuid-1" /\
  (forall file_name,
     extract_name_extension "http://elsewhere/q.png" "http://h/" = Some file_name ->
     [("http://h/image/a.png", example_score 2)]
       = [("http://h/" +:+ "image/" +:+ file_name, Fin 1)]) /\
  (extract_name_extension "http://elsewhere/q.png" "http://h/" = None ->
   ((0 <= 5)%Z ->
    length [("http://h/image/a.png", example_score 2)] <= Z.to_nat 5) /\
   length [("http://h/image/a.png", example_score 2)]
     <= length (images serving_world) /\
   exists img,
     example_download "http://elsewhere/q.png" = Ok img /\
     Forall (fun r => exists item,
               item ∈ images serving_world /\
               r.1 = "http://h/" +:+ "image/" +:+ item.1 /\
               calc_similarity (example_extract img) item.2
                 default_cosine_penalty_factor default_euclidean_penalty_factor
                 = Ok r.2 /\
               is_finite r.2 = true /\
               np_ge r.2 (Fin 0.2) = true)
       [("http://h/image/a.png", example_score 2)]).
Proof.
  apply (search_results_are_published_and_capped example_extract example_download
           example_hash "http://h/" "http://elsewhere/q.png" 5%Z None "uuid-1"
           3%Z serving_world "uuid-1" [("http://h/image/a.png", example_score 2)]).
  apply serving_search.
Defined.
